(** * fixed_point.hpp and hw_reg.hpp: a shallow embedding

    The two headers are template libraries.  Template parameters (the raw
    storage type, the bit counts [I] and [F], the widened flag, the register
    capabilities) are carried as ordinary data next to the run-time value, so
    that properties quantified over "every instantiation" become ordinary
    universally quantified statements.

    Conventions for the C++ integer semantics used throughout:
    - [int] is 32 bits wide, [std::intN_t] are the exact-width types;
    - a conversion to an integer type reduces the value modulo [2^N]
      (two's complement);
    - signed [+], [-], [*], unary [-] and [<<] that leave the range of their
      type wrap around the same way, and [>>] on a negative value is an
      arithmetic shift;
    - division by zero, a quotient that the type of the division cannot
      represent (the most negative value divided by -1) and a shift count
      that is not smaller than the width of the promoted left operand have
      no defined result ([Undefined]);
    - inside a constant expression signed [+], [-] and [*] do not wrap: an
      initializer in which one of them leaves the range of its type, or in
      which an operation has no defined result, is not a constant
      expression and is rejected;
    - an expression that the compiler rejects (failed [static_assert], no
      viable overload, an initializer that is not constant) is
      [IllFormed]. *)

From Stdlib Require Import ZArith NArith Bool Lia.

Local Open Scope Z_scope.

(** ** Outcomes of evaluating a C++ expression *)

Inductive result (A : Type) : Type :=
| Ok (a : A)
| IllFormed
| Undefined.

Arguments Ok {A} a.
Arguments IllFormed {A}.
Arguments Undefined {A}.

Definition bind {A B : Type} (r : result A) (k : A -> result B) : result B :=
  match r with
  | Ok a => k a
  | IllFormed => IllFormed
  | Undefined => Undefined
  end.

Notation "x <- e ;; k" := (bind e (fun x => k))
  (at level 61, e at next level, right associativity).

(** ** Built-in integer types and their arithmetic *)

Module Cxx.

(** The types that [fixed_point_widened_raw_type] and
    [fixed_point_narrowed_raw_type] mention, [void] included. *)
Inductive raw_ty : Type :=
| Void
| Int8 | UInt8
| Int16 | UInt16
| Int32 | UInt32
| Int64 | UInt64.

Definition raw_ty_eqb (a b : raw_ty) : bool :=
  match a, b with
  | Void, Void | Int8, Int8 | UInt8, UInt8 | Int16, Int16 | UInt16, UInt16
  | Int32, Int32 | UInt32, UInt32 | Int64, Int64 | UInt64, UInt64 => true
  | _, _ => false
  end.

Definition is_void (t : raw_ty) : bool :=
  match t with Void => true | _ => false end.

(** [std::is_integral<T>::value] *)
Definition is_integral (t : raw_ty) : bool := negb (is_void t).

(** [std::is_signed<T>::value] *)
Definition is_signed (t : raw_ty) : bool :=
  match t with
  | Int8 | Int16 | Int32 | Int64 => true
  | _ => false
  end.

(** Width of the object representation in bits. *)
Definition bit_width (t : raw_ty) : N :=
  match t with
  | Void => 0
  | Int8 | UInt8 => 8
  | Int16 | UInt16 => 16
  | Int32 | UInt32 => 32
  | Int64 | UInt64 => 64
  end%N.

(** [std::numeric_limits<T>::digits]: the value bits, sign excluded. *)
Definition digits (t : raw_ty) : N :=
  (bit_width t - (if is_signed t then 1 else 0))%N.

Definition modulus (t : raw_ty) : Z := 2 ^ Z.of_N (bit_width t).

(** [std::numeric_limits<T>::min ()] and [max ()] *)
Definition numeric_min (t : raw_ty) : Z :=
  if is_signed t then - 2 ^ Z.of_N (digits t) else 0.

Definition numeric_max (t : raw_ty) : Z :=
  2 ^ Z.of_N (digits t) - 1.

Definition in_range (t : raw_ty) (z : Z) : Prop :=
  numeric_min t <= z <= numeric_max t.

Definition in_rangeb (t : raw_ty) (z : Z) : bool :=
  (numeric_min t <=? z) && (z <=? numeric_max t).

(** Reduction of a mathematical integer into the value set of [t]. *)
Definition wrap (t : raw_ty) (z : Z) : Z :=
  if is_signed t
  then (z + 2 ^ Z.of_N (digits t)) mod modulus t - 2 ^ Z.of_N (digits t)
  else z mod modulus t.

(** Integral promotion: everything narrower than [int] becomes [int]. *)
Definition promote (t : raw_ty) : raw_ty :=
  match t with
  | Int8 | UInt8 | Int16 | UInt16 => Int32
  | _ => t
  end.

(** Usual arithmetic conversions, applied to two promoted types. *)
Definition common_type (a b : raw_ty) : raw_ty :=
  match a, b with
  | Void, _ | _, Void => Void
  | UInt64, _ | _, UInt64 => UInt64
  | Int64, _ | _, Int64 => Int64
  | UInt32, _ | _, UInt32 => UInt32
  | _, _ => Int32
  end.

(** A value together with its static type. *)
Record cval : Type := CVal { cty : raw_ty; cnum : Z }.

(** [static_cast<t> (x)], also the implicit conversion to [t]. *)
Definition static_cast (t : raw_ty) (x : cval) : cval :=
  CVal t (wrap t (cnum x)).

(** An [int] literal. *)
Definition lit (z : Z) : cval := CVal Int32 z.

(** A binary arithmetic or bitwise operator on promoted, converted operands. *)
Definition arith (f : Z -> Z -> Z) (x y : cval) : cval :=
  let c := common_type (promote (cty x)) (promote (cty y)) in
  CVal c (wrap c (f (wrap c (cnum x)) (wrap c (cnum y)))).

Definition add := arith Z.add.
Definition sub := arith Z.sub.
Definition mul := arith Z.mul.
Definition band := arith Z.land.
Definition bor := arith Z.lor.
Definition bxor := arith Z.lxor.

(** [x / y] and [x % y] truncate toward zero.  Neither has a defined
    result when the divisor is zero or when the quotient does not fit the
    type the division is carried out in. *)
Definition div (x y : cval) : result cval :=
  let c := common_type (promote (cty x)) (promote (cty y)) in
  if wrap c (cnum y) =? 0 then Undefined
  else
    let q := Z.quot (wrap c (cnum x)) (wrap c (cnum y)) in
    if in_rangeb c q then Ok (CVal c q) else Undefined.

Definition rem (x y : cval) : result cval :=
  let c := common_type (promote (cty x)) (promote (cty y)) in
  if wrap c (cnum y) =? 0 then Undefined
  else
    let q := Z.quot (wrap c (cnum x)) (wrap c (cnum y)) in
    if in_rangeb c q
    then Ok (CVal c (wrap c (Z.rem (wrap c (cnum x)) (wrap c (cnum y)))))
    else Undefined.

(** Unary [-] and [~]. *)
Definition neg (x : cval) : cval :=
  let p := promote (cty x) in CVal p (wrap p (- wrap p (cnum x))).

Definition bnot (x : cval) : cval :=
  let p := promote (cty x) in CVal p (wrap p (Z.lnot (wrap p (cnum x)))).

(** [x << n] and [x >> n]; the result has the promoted type of [x]. *)
Definition shl (x : cval) (n : Z) : result cval :=
  let p := promote (cty x) in
  if (0 <=? n) && (n <? Z.of_N (bit_width p))
  then Ok (CVal p (wrap p (Z.shiftl (wrap p (cnum x)) n)))
  else Undefined.

Definition shr (x : cval) (n : Z) : result cval :=
  let p := promote (cty x) in
  if (0 <=? n) && (n <? Z.of_N (bit_width p))
  then Ok (CVal p (wrap p (Z.shiftr (wrap p (cnum x)) n)))
  else Undefined.

(** Evaluation inside a constant expression.  An operation without a
    defined result, and a signed [+], [-] or [*] whose result is outside
    the range of its type, make the expression non-constant; the
    initializer of a [static constexpr] member is then rejected. *)
Definition constant_expression {A : Type} (r : result A) : result A :=
  match r with
  | Undefined => IllFormed
  | _ => r
  end.

Definition constexpr_arith (f : Z -> Z -> Z) (x y : cval) : result cval :=
  let c := common_type (promote (cty x)) (promote (cty y)) in
  let r := f (wrap c (cnum x)) (wrap c (cnum y)) in
  if is_signed c && negb (in_rangeb c r) then IllFormed
  else Ok (CVal c (wrap c r)).

(** Comparisons. *)
Definition cmp (f : Z -> Z -> bool) (x y : cval) : bool :=
  let c := common_type (promote (cty x)) (promote (cty y)) in
  f (wrap c (cnum x)) (wrap c (cnum y)).

Definition eq := cmp Z.eqb.
Definition ne := cmp (fun a b => negb (a =? b)).
Definition lt := cmp Z.ltb.
Definition le := cmp Z.leb.
Definition gt := cmp Z.gtb.
Definition ge := cmp Z.geb.

End Cxx.

(** ** The fixed_point class template *)

Module FixedPoint.

Import Cxx.

(** [fixed_point_widened_raw_type<U>::type] *)
Definition fixed_point_widened_raw_type (u : raw_ty) : raw_ty :=
  match u with
  | Int8 => Int16
  | UInt8 => UInt16
  | Int16 => Int32
  | UInt16 => UInt32
  | Int32 => Int64
  | UInt32 => UInt64
  | Int64 => Void
  | UInt64 => Void
  | Void => Void
  end.

(** [fixed_point_narrowed_raw_type<U>::type] *)
Definition fixed_point_narrowed_raw_type (u : raw_ty) : raw_ty :=
  match u with
  | Int8 => Void
  | UInt8 => Void
  | Int16 => Int8
  | UInt16 => UInt8
  | Int32 => Int16
  | UInt32 => UInt16
  | Int64 => Int32
  | UInt64 => UInt32
  | Void => Void
  end.

(** The template arguments [<T, I, F, W>] of one instantiation. *)
Record fixed_type : Type := FixedType {
  raw_type : raw_ty;
  integral_bits : N;
  fractional_bits : N;
  is_widened : bool
}.

Definition fixed_type_eqb (a b : fixed_type) : bool :=
  raw_ty_eqb (raw_type a) (raw_type b)
  && (integral_bits a =? integral_bits b)%N
  && (fractional_bits a =? fractional_bits b)%N
  && Bool.eqb (is_widened a) (is_widened b).

(** The default of the third template argument. *)
Definition default_fractional_bits (t : raw_ty) (i : N) : N :=
  ((if is_signed t then 1 else 0) + digits t - i)%N.

Definition widened_raw_type (ft : fixed_type) : raw_ty :=
  fixed_point_widened_raw_type (raw_type ft).

Definition narrowed_raw_type (ft : fixed_type) : raw_ty :=
  fixed_point_narrowed_raw_type (raw_type ft).

Definition widened_fixed_type (ft : fixed_type) : fixed_type :=
  FixedType (widened_raw_type ft) (integral_bits ft * 2) (fractional_bits ft * 2) true.

Definition narrowed_fixed_type (ft : fixed_type) : fixed_type :=
  FixedType (narrowed_raw_type ft) (integral_bits ft / 2) (fractional_bits ft / 2) false.

(** The three [static_assert]s of the primary template; the specialization
    for [void] is an empty class, which no expression below can construct. *)
Definition well_formed (ft : fixed_type) : bool :=
  is_integral (raw_type ft)
  && ((if is_signed (raw_type ft) then 1 else 0) + digits (raw_type ft)
      =? integral_bits ft + fractional_bits ft)%N
  && (0 <? integral_bits ft)%N.

(** An object of class [fixed_point<T, I, F, W>]: its type and the member
    [value]. *)
Record fixed_point : Type := FixedPoint {
  ftype : fixed_type;
  value : Z
}.

(** [raw ()] *)
Definition raw (a : fixed_point) : cval := CVal (raw_type (ftype a)) (value a).

(** The member [value] holds a value of [raw_type]. *)
Definition has_raw_value (a : fixed_point) : Prop :=
  in_range (raw_type (ftype a)) (value a).

(** [fixed_point (_raw_value, FIXED_POINT_RAW)]: the argument binds to
    [const raw_type&], hence is converted to [raw_type]. *)
Definition FIXED_POINT_RAW (ft : fixed_type) (x : cval) : fixed_point :=
  FixedPoint ft (cnum (static_cast (raw_type ft) x)).

(** The same constructor used at a type that the expression instantiates. *)
Definition construct (ft : fixed_type) (x : cval) : result fixed_point :=
  if well_formed ft then Ok (FIXED_POINT_RAW ft x) else IllFormed.

(** [fractional_mask] and [integral_mask], two [static constexpr] members:
    their initializers are constant expressions or the member is rejected
    where it is used. *)
Definition fractional_mask (ft : fixed_type) : result cval :=
  one <- constant_expression
           (shl (static_cast (raw_type ft) (lit 1)) (Z.of_N (fractional_bits ft))) ;;
  m <- constexpr_arith Z.sub one (lit 1) ;;
  Ok (static_cast (raw_type ft) m).

Definition integral_mask (ft : fixed_type) : result cval :=
  fm <- fractional_mask ft ;;
  Ok (static_cast (raw_type ft) (bnot fm)).

(** [cast<otherT>::from] and [cast<otherT>::to] for integral [otherT] *)
Definition cast_integral_from (ft : fixed_type) (v : cval) : result cval :=
  if is_integral (cty v)
  then r <- shl (static_cast (raw_type ft) v) (Z.of_N (fractional_bits ft)) ;;
       Ok (static_cast (raw_type ft) r)
  else IllFormed.

Definition cast_integral_to (ft : fixed_type) (otherT : raw_ty) (v : cval)
  : result cval :=
  if is_integral otherT
  then r <- shr v (Z.of_N (fractional_bits ft)) ;;
       Ok (static_cast otherT r)
  else IllFormed.

(** Implicit construction [fixed_point (const otherT& other_value)]. *)
Definition of_integral (ft : fixed_type) (other_value : cval) : result fixed_point :=
  if well_formed ft
  then v <- cast_integral_from ft other_value ;; Ok (FixedPoint ft (cnum v))
  else IllFormed.

(** [explicit operator otherT ()] *)
Definition to_integral (otherT : raw_ty) (a : fixed_point) : result cval :=
  cast_integral_to (ftype a) otherT (raw a).

(** [explicit operator bool ()] *)
Definition to_bool (a : fixed_point) : bool := ne (raw a) (lit 0).

(** [convert_to<destT, destI, destF, destW> ()]: one of three overloads is
    enabled, by comparing [destF] with [fractional_bits]. *)
Definition convert_to (dest : fixed_type) (a : fixed_point) : result fixed_point :=
  let destT := raw_type dest in
  let destF := fractional_bits dest in
  let F := fractional_bits (ftype a) in
  if (destF =? F)%N then
    construct dest (static_cast destT (raw a))
  else if (F <? destF)%N then
    r <- shl (static_cast destT (raw a)) (Z.of_N (destF - F)) ;;
    construct dest r
  else
    r <- shr (raw a) (Z.of_N (F - destF)) ;;
    construct dest (static_cast destT r).

(** Unary minus. *)
Definition operator_neg (a : fixed_point) : fixed_point :=
  FIXED_POINT_RAW (ftype a) (neg (raw a)).

(** Relational operators; both operands have the class's own type. *)
Definition operator_eq (a rhs : fixed_point) : bool := eq (raw a) (raw rhs).
Definition operator_ne (a rhs : fixed_point) : bool := ne (raw a) (raw rhs).
Definition operator_lt (a rhs : fixed_point) : bool := lt (raw a) (raw rhs).
Definition operator_le (a rhs : fixed_point) : bool := le (raw a) (raw rhs).
Definition operator_gt (a rhs : fixed_point) : bool := gt (raw a) (raw rhs).
Definition operator_ge (a rhs : fixed_point) : bool := ge (raw a) (raw rhs).
Definition operator_not (a : fixed_point) : bool := eq (raw a) (lit 0).

(** *** Multiplication *)

(** The [enable_if] condition of [fixed * fixed -> widened_fixed]. *)
Definition mul_fixed_fixed_enabled (lhs rhs : fixed_type) : bool :=
  negb (is_widened lhs) && fixed_type_eqb lhs rhs.

(** Body of [fixed * fixed -> widened_fixed]. *)
Definition mul_fixed_fixed (lhs rhs : fixed_point) : result fixed_point :=
  let T := ftype lhs in
  if is_void (widened_raw_type T) then IllFormed
  else construct (widened_fixed_type T)
         (mul (static_cast (widened_raw_type T) (raw lhs))
              (static_cast (widened_raw_type T) (raw rhs))).

(** *** Division *)

(** Body of [(widened_fixed)fixed / fixed -> fixed]; a [void] widened raw
    type cannot be shifted. *)
Definition div_fixed_fixed (lhs rhs : fixed_point) : result fixed_point :=
  let T := ftype lhs in
  if is_void (widened_raw_type T) then IllFormed
  else
    d <- shl (static_cast (widened_raw_type T) (raw lhs))
             (Z.of_N (fractional_bits T)) ;;
    q <- div d (raw rhs) ;;
    Ok (FIXED_POINT_RAW T q).

(** Body of [widened / fixed -> fixed]. *)
Definition div_widened_fixed (lhs rhs : fixed_point) : result fixed_point :=
  q <- div (raw lhs) (raw rhs) ;;
  construct (narrowed_fixed_type (ftype lhs)) q.

(** Body of [fixed / (fixed)widened -> fixed]: the inner [/] has two
    operands of the narrowed type. *)
Definition div_fixed_widened (lhs rhs : fixed_point) : result fixed_point :=
  r <- convert_to (narrowed_fixed_type (ftype rhs)) rhs ;;
  div_fixed_fixed lhs r.

(** Body of [widened / (fixed)widened -> fixed]: the inner [/] is
    [widened / fixed]. *)
Definition div_widened_widened (lhs rhs : fixed_point) : result fixed_point :=
  r <- convert_to (narrowed_fixed_type (ftype rhs)) rhs ;;
  div_widened_fixed lhs r.

(** [lhs / rhs] for two fixed_point operands: the [enable_if] conditions of
    the four friend templates select at most one of them. *)
Definition operator_div (lhs rhs : fixed_point) : result fixed_point :=
  let A := ftype lhs in
  let B := ftype rhs in
  if fixed_type_eqb A B then
    if is_widened A then div_widened_widened lhs rhs
    else div_fixed_fixed lhs rhs
  else if is_widened A && fixed_type_eqb B (narrowed_fixed_type A) then
    div_widened_fixed lhs rhs
  else if is_widened B && fixed_type_eqb A (narrowed_fixed_type B) then
    div_fixed_widened lhs rhs
  else IllFormed.


(** *** Functions in namespace std *)

(** [numeric_limits<fixed_point<T, I, F, W>>::min ()] *)
Definition numeric_limits_min (ft : fixed_type) : result fixed_point :=
  construct ft (CVal (raw_type ft) (numeric_min (raw_type ft))).

(** [std::abs]: the literal [0] reaches [operator <] through the implicit
    constructor from an integral value. *)
Definition abs (val : fixed_point) : result fixed_point :=
  zero <- of_integral (ftype val) (lit 0) ;;
  Ok (if operator_lt val zero then operator_neg val else val).

(** [std::fabs] *)
Definition fabs (val : fixed_point) : result fixed_point :=
  zero <- of_integral (ftype val) (lit 0) ;;
  Ok (if operator_lt val zero then operator_neg val else val).

(** [std::trunc] *)
Definition trunc (a : fixed_point) : result fixed_point :=
  m <- integral_mask (ftype a) ;;
  Ok (FIXED_POINT_RAW (ftype a) (band (raw a) m)).


(** An integer fits in the [I] integral bits of a type: as an [I]-bit
    two's complement number when the raw type is signed, as an [I]-bit
    unsigned number otherwise. *)
Definition fits_in_integral_bits (ft : fixed_type) (n : Z) : Prop :=
  if is_signed (raw_type ft)
  then - 2 ^ (Z.of_N (integral_bits ft) - 1) <= n < 2 ^ (Z.of_N (integral_bits ft) - 1)
  else 0 <= n < 2 ^ Z.of_N (integral_bits ft).

(** *** Further members and functions of fixed_point.hpp *)

(** A cast [(dest) a] written in the source: the copy constructor when the
    types agree, the explicit converting constructor otherwise. *)
Definition fixed_point_cast (dest : fixed_type) (a : fixed_point) : result fixed_point :=
  if fixed_type_eqb (ftype a) dest then Ok a else convert_to dest a.

(** The implicit conversion operators to the narrowed and to the widened
    companion type. *)
Definition operator_narrowed_fixed_type (a : fixed_point) : result fixed_point :=
  convert_to (narrowed_fixed_type (ftype a)) a.

Definition operator_widened_fixed_type (a : fixed_point) : result fixed_point :=
  convert_to (widened_fixed_type (ftype a)) a.

(** Unary plus. *)
Definition operator_pos (a : fixed_point) : fixed_point := a.

(** [fixed_point + fixed_point -> fixed_point] and [fixed - fixed -> fixed],
    both operands of the class's own type. *)
Definition operator_add (lhs rhs : fixed_point) : fixed_point :=
  FIXED_POINT_RAW (ftype lhs) (add (raw lhs) (raw rhs)).

Definition operator_sub (lhs rhs : fixed_point) : fixed_point :=
  FIXED_POINT_RAW (ftype lhs) (sub (raw lhs) (raw rhs)).

(** [widened_fixed + (widened_fixed)fixed] and [widened_fixed -
    (widened_fixed)fixed]: the narrow operand is cast to the widened type. *)
Definition add_widened_fixed (lhs rhs : fixed_point) : result fixed_point :=
  r <- fixed_point_cast (ftype lhs) rhs ;;
  Ok (operator_add lhs r).

Definition sub_widened_fixed (lhs rhs : fixed_point) : result fixed_point :=
  r <- fixed_point_cast (ftype lhs) rhs ;;
  Ok (operator_sub lhs r).

(** [(widened_fixed)fixed + widened_fixed] is [rhs + lhs];
    [(widened_fixed)fixed - widened_fixed] casts the left operand. *)
Definition add_fixed_widened (lhs rhs : fixed_point) : result fixed_point :=
  add_widened_fixed rhs lhs.

Definition sub_fixed_widened (lhs rhs : fixed_point) : result fixed_point :=
  l <- fixed_point_cast (ftype rhs) lhs ;;
  Ok (operator_sub l rhs).

(** [operator +=] assigns [*this + rhs]; [operator -=] subtracts in place.
    Both return the object after the assignment. *)
Definition operator_add_assign (this rhs : fixed_point) : fixed_point :=
  operator_add this rhs.

Definition operator_sub_assign (this rhs : fixed_point) : fixed_point :=
  FixedPoint (ftype this)
    (cnum (static_cast (raw_type (ftype this)) (sub (raw this) (raw rhs)))).

(** Increment and decrement: the pair is the object afterwards and the
    value the operator returns. *)
Definition pre_increment (this : fixed_point) : result (fixed_point * fixed_point) :=
  one <- of_integral (ftype this) (lit 1) ;;
  Ok (operator_add_assign this one, operator_add_assign this one).

Definition post_increment (this : fixed_point) : result (fixed_point * fixed_point) :=
  one <- of_integral (ftype this) (lit 1) ;;
  Ok (operator_add_assign this one, this).

Definition pre_decrement (this : fixed_point) : result (fixed_point * fixed_point) :=
  one <- of_integral (ftype this) (lit 1) ;;
  Ok (operator_sub_assign this one, operator_sub_assign this one).

Definition post_decrement (this : fixed_point) : result (fixed_point * fixed_point) :=
  one <- of_integral (ftype this) (lit 1) ;;
  Ok (operator_sub_assign this one, this).

(** [(fixed_point)widened_fixed * fixed] and
    [(fixed_point)widened_fixed * (fixed_point)widened_fixed]: widened
    operands are narrowed before the widening multiplication. *)
Definition mul_widened_fixed (lhs rhs : fixed_point) : result fixed_point :=
  l <- fixed_point_cast (narrowed_fixed_type (ftype lhs)) lhs ;;
  mul_fixed_fixed l rhs.

Definition mul_widened_widened (lhs rhs : fixed_point) : result fixed_point :=
  l <- fixed_point_cast (narrowed_fixed_type (ftype lhs)) lhs ;;
  r <- fixed_point_cast (narrowed_fixed_type (ftype rhs)) rhs ;;
  mul_fixed_fixed l r.

(** [operator *= (const fixed_point&)] on a non-widened object:
    [this = (fixed_point)(this * rhs)]. *)
Definition operator_mul_assign (this rhs : fixed_point) : result fixed_point :=
  w <- mul_fixed_fixed this rhs ;;
  fixed_point_cast (ftype this) w.

(** Multiplication of a non-widened value with an integral value. *)
Definition mul_fixed_integral (lhs : fixed_point) (rhs : cval) : result fixed_point :=
  let T := ftype lhs in
  if negb (is_integral (cty rhs)) || is_void (widened_raw_type T) then IllFormed
  else construct (widened_fixed_type T)
         (mul (static_cast (widened_raw_type T) (raw lhs))
              (static_cast (widened_raw_type T) rhs)).

(** [fixed,widened / int -> fixed,widened] *)
Definition div_fixed_integral (lhs : fixed_point) (rhs : cval) : result fixed_point :=
  if is_integral (cty rhs)
  then q <- div (raw lhs) rhs ;; Ok (FIXED_POINT_RAW (ftype lhs) q)
  else IllFormed.

(** [numeric_limits<fixed_point<T, I, F, W>>] *)
Definition numeric_limits_lowest (ft : fixed_type) : result fixed_point :=
  numeric_limits_min ft.

Definition numeric_limits_max (ft : fixed_type) : result fixed_point :=
  construct ft (CVal (raw_type ft) (numeric_max (raw_type ft))).

Definition numeric_limits_epsilon (ft : fixed_type) : result fixed_point :=
  construct ft (lit 1).

Definition numeric_limits_round_error (ft : fixed_type) : result fixed_point :=
  if well_formed ft
  then m <- fractional_mask ft ;; Ok (FIXED_POINT_RAW ft m)
  else IllFormed.

Definition numeric_limits_digits (ft : fixed_type) : N := integral_bits ft.

(** [std::min], [std::fmin], [std::max] and [std::fmax] select on the raw
    values. *)
Definition std_min (a b : fixed_point) : fixed_point :=
  FIXED_POINT_RAW (ftype a) (if lt (raw a) (raw b) then raw a else raw b).

Definition fmin (a b : fixed_point) : fixed_point :=
  FIXED_POINT_RAW (ftype a) (if lt (raw a) (raw b) then raw a else raw b).

Definition std_max (a b : fixed_point) : fixed_point :=
  FIXED_POINT_RAW (ftype a) (if gt (raw a) (raw b) then raw a else raw b).

Definition fmax (a b : fixed_point) : fixed_point :=
  FIXED_POINT_RAW (ftype a) (if gt (raw a) (raw b) then raw a else raw b).

(** [std::fma (x, y, z)] is [x * y + z] converted to the return type.  With
    a non-widened type the product is widened, [z] is added in the widened
    type and the sum is narrowed by the implicit conversion; with a widened
    type the product already has the type of [z]. *)
Definition fma (x y z : fixed_point) : result fixed_point :=
  if is_widened (ftype x)
  then p <- mul_widened_widened x y ;; Ok (operator_add p z)
  else p <- mul_fixed_fixed x y ;;
       s <- add_widened_fixed p z ;;
       operator_narrowed_fixed_type s.

(** The classification macros of [<cmath>] that [fpclassify] returns. *)
Inductive fp_class : Type := FP_ZERO | FP_NORMAL.

Definition fpclassify (x : fixed_point) : fp_class :=
  if eq (raw x) (lit 0) then FP_ZERO else FP_NORMAL.

Definition isfinite (x : fixed_point) : Z := 1.
Definition isinf (x : fixed_point) : Z := 0.
Definition isnan (x : fixed_point) : Z := 0.

Definition isnormal (x : fixed_point) : Z :=
  if ne (raw x) (lit 0) then 1 else 0.

Definition signbit (x : fixed_point) : Z :=
  if lt (raw x) (lit 0) then 1 else 0.

(** [std::copysign] *)
Definition copysign (x y : fixed_point) : result fixed_point :=
  f <- fabs x ;;
  Ok (if negb (signbit y =? 0) then operator_neg f else f).

End FixedPoint.

(** ** The hw_reg class template *)

Module HwReg.

(** The operators of the compound assignments, in the order of the class. *)
Inductive binop : Type :=
| OpAdd | OpSub | OpMul | OpDiv | OpRem | OpXor | OpAnd | OpOr | OpShr | OpShl.

Section hw_reg.

(** The register's value type and the value of [s op v] converted back to
    [T], as binding it to [const T&] requires. *)
Variable T : Type.
Variable eval_binop : binop -> T -> T -> result T.

(** [hw_reg_var<T, void>]: the register is a member of a register block. *)
Record hw_reg_var : Type := HwRegVar { __var : T }.

Definition var_read (r : hw_reg_var) : T := __var r.
Definition var_write (val : T) (r : hw_reg_var) : hw_reg_var := HwRegVar val.

(** [hw_reg<T, R, W, void>]: the capabilities and the member [__var]. *)
Record hw_reg : Type := HwReg {
  can_read : bool;
  can_write : bool;
  reg_var : hw_reg_var
}.

(** The private [read (std::true_type)]; another tag has no overload. *)
Definition read_tag (tag : bool) (r : hw_reg) : result T :=
  if tag then Ok (var_read (reg_var r)) else IllFormed.

(** The private [write (val, std::true_type)], which returns [*this].
    Overload resolution on the tag precedes the evaluation of [val]. *)
Definition write_tag (val : result T) (tag : bool) (r : hw_reg) : result hw_reg :=
  if tag
  then v <- val ;;
       Ok (HwReg (can_read r) (can_write r) (var_write v (reg_var r)))
  else IllFormed.

Definition read (r : hw_reg) : result T := read_tag (can_read r) r.
Definition operator_T (r : hw_reg) : result T := read_tag (can_read r) r.

Definition write (val : T) (r : hw_reg) : result hw_reg :=
  write_tag (Ok val) (can_write r) r.
Definition operator_assign (val : T) (r : hw_reg) : result hw_reg :=
  write_tag (Ok val) (can_write r) r.

(** [operator op=], the same body for each of the ten operators. *)
Definition operator_compound (op : binop) (val : T) (r : hw_reg) : result hw_reg :=
  write_tag (s <- read_tag (can_read r) r ;; eval_binop op s val) (can_write r) r.

End hw_reg.

Arguments HwRegVar {T} _.
Arguments HwReg {T} _ _ _.
Arguments __var {T} _.
Arguments can_read {T} _.
Arguments can_write {T} _.
Arguments reg_var {T} _.
Arguments read {T} _.
Arguments write {T} _ _.
Arguments operator_T {T} _.
Arguments operator_assign {T} _ _.
Arguments operator_compound {T} _ _ _ _.

(** The built-in operators at an integer type [t], for registers such as
    [hw_reg_rw<int32_t>]. *)
Definition integer_binop (t : Cxx.raw_ty) (op : binop) (s v : Z) : result Z :=
  let x := Cxx.CVal t s in
  let y := Cxx.CVal t v in
  r <- match op with
       | OpAdd => Ok (Cxx.add x y)
       | OpSub => Ok (Cxx.sub x y)
       | OpMul => Ok (Cxx.mul x y)
       | OpDiv => Cxx.div x y
       | OpRem => Cxx.rem x y
       | OpXor => Ok (Cxx.bxor x y)
       | OpAnd => Ok (Cxx.band x y)
       | OpOr => Ok (Cxx.bor x y)
       | OpShr => Cxx.shr x v
       | OpShl => Cxx.shl x v
       end ;;
  Ok (Cxx.cnum (Cxx.static_cast t r)).

End HwReg.

(** * Properties *)

(** ** Facts about the integer model *)

Module CxxFacts.

Import Cxx.

Ltac by_type t := destruct t; try discriminate; try reflexivity.

Ltac unfold_range :=
  unfold in_range, numeric_min, numeric_max, wrap, modulus, digits in *;
  cbn [is_signed bit_width promote common_type N.sub] in *.

Ltac euclid := Z.to_euclidean_division_equations; lia.

Lemma wrap_in_range (t : raw_ty) (z : Z) : in_range t z -> wrap t z = z.
Proof.
  destruct t; unfold_range; cbn; intros H;
    rewrite Z.mod_small by lia; lia.
Qed.

Lemma in_range_wrap (t : raw_ty) (z : Z) : in_range t (wrap t z).
Proof.
  destruct t; unfold_range; cbn; euclid.
Qed.

Lemma in_range_promote (t : raw_ty) (z : Z) :
  in_range t z -> in_range (promote t) z.
Proof.
  destruct t; unfold_range; cbn; lia.
Qed.

Lemma wrap_promote (t : raw_ty) (z : Z) :
  in_range t z -> wrap (promote t) z = z.
Proof.
  intros H; apply wrap_in_range, in_range_promote, H.
Qed.

Lemma common_type_diag (t : raw_ty) :
  common_type (promote t) (promote t) = promote t.
Proof. by_type t. Qed.

Lemma promote_idem (t : raw_ty) : promote (promote t) = promote t.
Proof. by_type t. Qed.

(** Converting to [t] forgets an earlier reduction to a type at least as
    wide: the promoted type, or any common type it enters. *)
Lemma wrap_wrap_promote (t : raw_ty) (z : Z) :
  wrap t (wrap (promote t) z) = wrap t z.
Proof.
  destruct t; unfold_range; cbn; try reflexivity; euclid.
Qed.

Lemma in_range_bounds (t : raw_ty) (z : Z) :
  in_range t z ->
  - 2 ^ Z.of_N (digits t) <= z < 2 ^ Z.of_N (bit_width t).
Proof.
  destruct t; unfold_range; cbn; lia.
Qed.

Lemma in_range_shiftr (t : raw_ty) (z n : Z) :
  0 <= n -> in_range t z -> in_range t (Z.shiftr z n).
Proof.
  intros Hn H. rewrite Z.shiftr_div_pow2 by exact Hn.
  assert (Hp : 0 < 2 ^ n) by (apply Z.pow_pos_nonneg; lia).
  assert (Hlo : numeric_min t <= 0 <= numeric_max t)
    by (destruct t; unfold_range; cbn; lia).
  unfold in_range in *.
  destruct (Z.neg_nonneg_cases z) as [Hz | Hz].
  - assert (z <= z / 2 ^ n) by (apply Z.div_le_lower_bound; nia).
    assert (z / 2 ^ n < 0) by (apply Z.div_lt_upper_bound; lia).
    lia.
  - assert (0 <= z / 2 ^ n) by (apply Z.div_pos; lia).
    assert (z / 2 ^ n <= z) by (apply Z.div_le_upper_bound; nia).
    lia.
Qed.

Lemma numeric_min_in_range (t : raw_ty) : in_range t (numeric_min t).
Proof.
  destruct t; unfold_range; cbn; lia.
Qed.

Lemma in_rangeb_spec (t : raw_ty) (z : Z) :
  in_rangeb t z = true <-> in_range t z.
Proof.
  unfold in_rangeb, in_range. rewrite andb_true_iff, !Z.leb_le. reflexivity.
Qed.

Lemma quot_abs_le (x y : Z) : y <> 0 -> Z.abs (Z.quot x y) <= Z.abs x.
Proof.
  intros Hy. rewrite <- Z.quot_abs by exact Hy.
  rewrite Z.quot_div_nonneg by lia.
  apply Z.div_le_upper_bound; [lia | ].
  assert (0 <= Z.abs x) by apply Z.abs_nonneg. nia.
Qed.

(** A quotient is representable unless the dividend is the most negative
    value of a signed type. *)
Lemma quot_in_range (t : raw_ty) (x y : Z) :
  y <> 0 ->
  in_range t x -> in_range t y ->
  (is_signed t = true -> numeric_min t < x) ->
  in_range t (Z.quot x y).
Proof.
  intros Hy Hx Hyr Hmin. pose proof (quot_abs_le x y Hy) as Habs.
  unfold in_range, numeric_min, numeric_max in *.
  destruct (is_signed t).
  - specialize (Hmin eq_refl). lia.
  - assert (0 <= Z.quot x y) by (apply Z.quot_pos; lia). lia.
Qed.

End CxxFacts.

(** ** Properties of fixed_point *)

Module FixedPointFacts.

Import Cxx FixedPoint CxxFacts.

Lemma well_formed_spec (ft : fixed_type) :
  well_formed ft = true ->
  raw_type ft <> Void
  /\ bit_width (raw_type ft) = (integral_bits ft + fractional_bits ft)%N
  /\ (0 < integral_bits ft)%N.
Proof.
  unfold well_formed. intros H.
  apply andb_prop in H as [H HI]. apply andb_prop in H as [Hv Hb].
  apply N.ltb_lt in HI. apply N.eqb_eq in Hb.
  destruct (raw_type ft); try discriminate; cbn in Hb |- *;
    (split; [discriminate | split; [lia | exact HI]]).
Qed.

Lemma fractional_bits_lt_width (ft : fixed_type) :
  well_formed ft = true ->
  (fractional_bits ft < bit_width (raw_type ft))%N.
Proof.
  intros H. destruct (well_formed_spec ft H) as (_ & Hb & HI). lia.
Qed.

Lemma bit_width_promote (t : raw_ty) :
  (bit_width t <= bit_width (promote t))%N.
Proof. destruct t; cbn; lia. Qed.

Lemma shl_ok (x : cval) (n : Z) :
  0 <= n < Z.of_N (bit_width (promote (cty x))) ->
  shl x n = Ok (CVal (promote (cty x))
                  (wrap (promote (cty x))
                     (Z.shiftl (wrap (promote (cty x)) (cnum x)) n))).
Proof.
  intros [H0 H1]. unfold shl.
  apply Z.leb_le in H0. apply Z.ltb_lt in H1. rewrite H0, H1. reflexivity.
Qed.

Lemma shr_ok (x : cval) (n : Z) :
  0 <= n < Z.of_N (bit_width (promote (cty x))) ->
  shr x n = Ok (CVal (promote (cty x))
                  (wrap (promote (cty x))
                     (Z.shiftr (wrap (promote (cty x)) (cnum x)) n))).
Proof.
  intros [H0 H1]. unfold shr.
  apply Z.leb_le in H0. apply Z.ltb_lt in H1. rewrite H0, H1. reflexivity.
Qed.

Lemma wrap_zero (t : raw_ty) : wrap t 0 = 0.
Proof. by_type t. Qed.

Lemma of_integral_zero (ft : fixed_type) :
  well_formed ft = true -> of_integral ft (lit 0) = Ok (FixedPoint ft 0).
Proof.
  intros H. unfold of_integral, cast_integral_from. rewrite H. cbn [lit cty is_integral is_void negb].
  pose proof (fractional_bits_lt_width ft H) as HF.
  pose proof (bit_width_promote (raw_type ft)) as HP.
  rewrite shl_ok by (cbn [static_cast cty]; lia).
  cbn [bind static_cast cnum cty].
  rewrite !wrap_zero, Z.shiftl_0_l, !wrap_zero. reflexivity.
Qed.

Lemma operator_lt_raw (a b : fixed_point) :
  ftype a = ftype b -> has_raw_value a -> has_raw_value b ->
  operator_lt a b = (value a <? value b).
Proof.
  unfold has_raw_value, operator_lt, lt, cmp, raw. intros E Ha Hb.
  cbn [cty cnum]. rewrite <- E, common_type_diag in *.
  rewrite !wrap_promote by assumption. reflexivity.
Qed.

Lemma abs_unfold (a : fixed_point) :
  well_formed (ftype a) = true -> has_raw_value a ->
  abs a = Ok (if value a <? 0 then operator_neg a else a).
Proof.
  intros Hwf Ha. unfold abs. rewrite of_integral_zero by exact Hwf.
  cbn [bind]. rewrite operator_lt_raw; try reflexivity; try exact Ha.
  unfold has_raw_value. cbn [ftype value].
  destruct (well_formed_spec _ Hwf) as (Hv & _).
  destruct (raw_type (ftype a)); try congruence; unfold_range; cbn; lia.
Qed.

(** C7: [std::abs] of a value with a signed raw type is the value itself
    when its raw value is not negative and its negation otherwise; with an
    unsigned raw type it is the identity; [std::fabs] does the same. *)
Theorem abs_signed_unsigned (a : fixed_point) :
  well_formed (ftype a) = true ->
  has_raw_value a ->
  (is_signed (raw_type (ftype a)) = true ->
     abs a = Ok (if 0 <=? value a then a else operator_neg a))
  /\ (is_signed (raw_type (ftype a)) = false -> abs a = Ok a)
  /\ fabs a = abs a.
Proof.
  intros Hwf Ha. rewrite abs_unfold by assumption. repeat split.
  - intros _. destruct (Z.ltb_spec (value a) 0), (Z.leb_spec 0 (value a));
      try reflexivity; lia.
  - intros Hu. destruct (Z.ltb_spec (value a) 0) as [Hneg | _]; [ | reflexivity].
    exfalso. unfold has_raw_value, in_range, numeric_min in Ha.
    rewrite Hu in Ha. lia.
  - unfold fabs. fold (abs a). apply abs_unfold; assumption.
Qed.

Lemma abs_signed_unsigned_witness :
  abs (FixedPoint (FixedType Int32 16 16 false) (-98304))
  = Ok (FixedPoint (FixedType Int32 16 16 false) 98304)
  /\ abs (FixedPoint (FixedType UInt32 16 16 false) 4000000000)
     = Ok (FixedPoint (FixedType UInt32 16 16 false) 4000000000).
Proof.
  split.
  - apply (proj1 (abs_signed_unsigned
                    (FixedPoint (FixedType Int32 16 16 false) (-98304))
                    eq_refl ltac:(vm_compute; split; discriminate))).
    reflexivity.
  - apply (proj1 (proj2 (abs_signed_unsigned
                    (FixedPoint (FixedType UInt32 16 16 false) 4000000000)
                    eq_refl ltac:(vm_compute; split; discriminate)))).
    reflexivity.
Defined.

Lemma neg_numeric_min (t : raw_ty) :
  is_signed t = true ->
  wrap t (wrap (promote t) (- wrap (promote t) (numeric_min t))) = numeric_min t.
Proof. by_type t. Qed.

Lemma numeric_min_negative (t : raw_ty) :
  is_signed t = true -> numeric_min t < 0.
Proof. by_type t. Qed.

(** C10: with a signed raw type, [std::abs] of the most negative value,
    the one [numeric_limits::min ()] returns, is that same value: unary
    minus wraps around to it, so the result of [abs] is negative. *)
Theorem abs_of_min_is_min (ft : fixed_type) :
  well_formed ft = true ->
  is_signed (raw_type ft) = true ->
  exists m : fixed_point,
    numeric_limits_min ft = Ok m
    /\ value m = numeric_min (raw_type ft)
    /\ operator_neg m = m
    /\ abs m = Ok m
    /\ value m < 0.
Proof.
  intros Hwf Hs.
  exists (FixedPoint ft (numeric_min (raw_type ft))).
  assert (Hmin : numeric_limits_min ft = Ok (FixedPoint ft (numeric_min (raw_type ft)))).
  { unfold numeric_limits_min, construct, FIXED_POINT_RAW. rewrite Hwf.
    cbn [static_cast cnum]. rewrite wrap_in_range by apply numeric_min_in_range.
    reflexivity. }
  assert (Hneg : operator_neg (FixedPoint ft (numeric_min (raw_type ft)))
                 = FixedPoint ft (numeric_min (raw_type ft))).
  { unfold operator_neg, FIXED_POINT_RAW, neg, raw.
    cbn [ftype value static_cast cnum cty].
    rewrite neg_numeric_min by exact Hs. reflexivity. }
  pose proof (numeric_min_negative _ Hs) as Hlt.
  repeat split; try assumption.
  rewrite abs_unfold.
  - cbn [value]. apply Z.ltb_lt in Hlt. rewrite Hlt, Hneg. reflexivity.
  - exact Hwf.
  - apply numeric_min_in_range.
Qed.

Lemma abs_of_min_is_min_witness :
  exists m : fixed_point,
    numeric_limits_min (FixedType Int32 16 16 false) = Ok m
    /\ value m = - 2147483648
    /\ operator_neg m = m
    /\ abs m = Ok m
    /\ value m < 0.
Proof.
  exact (abs_of_min_is_min (FixedType Int32 16 16 false) eq_refl eq_refl).
Defined.

Lemma cmp_raw (f : Z -> Z -> bool) (a b : fixed_point) :
  ftype a = ftype b -> has_raw_value a -> has_raw_value b ->
  cmp f (raw a) (raw b) = f (value a) (value b).
Proof.
  unfold has_raw_value, cmp, raw. intros E Ha Hb.
  cbn [cty cnum]. rewrite <- E, common_type_diag in *.
  rewrite !wrap_promote by assumption. reflexivity.
Qed.

(** C8: equality is reflexive, and on two values of one type every
    relational operator gives the answer of the same comparison on the raw
    values; in particular [a < b] holds exactly when [a.raw < b.raw]. *)
Theorem relational_operators_compare_raw (a b : fixed_point) :
  ftype a = ftype b ->
  has_raw_value a ->
  has_raw_value b ->
  operator_eq a a = true
  /\ (operator_lt a b = true <-> value a < value b)
  /\ (operator_eq a b = true <-> value a = value b)
  /\ (operator_ne a b = true <-> value a <> value b)
  /\ (operator_le a b = true <-> value a <= value b)
  /\ (operator_gt a b = true <-> value a > value b)
  /\ (operator_ge a b = true <-> value a >= value b)
  /\ (operator_not a = true <-> value a = 0).
Proof.
  intros E Ha Hb.
  assert (Hnot : operator_not a = true <-> value a = 0).
  { unfold operator_not, eq, cmp, raw, lit, has_raw_value in *.
    cbn [cty cnum]. rewrite Z.eqb_eq.
    destruct (raw_type (ftype a)); unfold_range; cbn in *;
      try rewrite Z.mod_small by lia; lia. }
  unfold operator_eq, operator_lt, operator_ne, operator_le, operator_gt,
    operator_ge, eq, lt, ne, le, gt, ge.
  rewrite (cmp_raw _ a a eq_refl Ha Ha).
  rewrite !(cmp_raw _ a b E Ha Hb).
  split; [apply Z.eqb_refl | ].
  split; [apply Z.ltb_lt | ].
  split; [apply Z.eqb_eq | ].
  split; [rewrite negb_true_iff; apply Z.eqb_neq | ].
  split; [apply Z.leb_le | ].
  split; [rewrite Z.gtb_ltb, Z.ltb_lt; lia | ].
  split; [rewrite Z.geb_leb, Z.leb_le; lia | exact Hnot].
Qed.

Lemma relational_operators_compare_raw_witness :
  operator_eq (FixedPoint (FixedType Int8 4 4 false) (-24))
              (FixedPoint (FixedType Int8 4 4 false) (-24)) = true
  /\ (operator_lt (FixedPoint (FixedType Int8 4 4 false) (-24))
                  (FixedPoint (FixedType Int8 4 4 false) 16) = true
      <-> -24 < 16).
Proof.
  pose proof (relational_operators_compare_raw
                (FixedPoint (FixedType Int8 4 4 false) (-24))
                (FixedPoint (FixedType Int8 4 4 false) 16)
                eq_refl
                ltac:(vm_compute; split; discriminate)
                ltac:(vm_compute; split; discriminate)) as (H1 & H2 & _).
  exact (conj H1 H2).
Defined.

Lemma mul_abs_bound (m x y : Z) :
  - m <= x <= m -> - m <= y <= m -> - (m * m) <= x * y <= m * m.
Proof.
  intros Hx Hy.
  assert (Hm : Z.abs (x * y) <= m * m).
  { rewrite Z.abs_mul. apply Z.mul_le_mono_nonneg; lia. }
  lia.
Qed.

(** Both operands of a widening multiplication fit the widened raw type,
    and so does their product. *)
Lemma widened_product_in_range (t : raw_ty) (x y : Z) :
  fixed_point_widened_raw_type t <> Void ->
  in_range t x -> in_range t y ->
  in_range (fixed_point_widened_raw_type t) x
  /\ in_range (fixed_point_widened_raw_type t) y
  /\ in_range (fixed_point_widened_raw_type t) (x * y).
Proof.
  intros Hw Hx Hy.
  destruct t; cbn in Hw; try congruence; unfold_range; cbn in *;
    (split; [lia | split; [lia | ]]).
  - pose proof (mul_abs_bound 128 x y). lia.
  - pose proof (mul_abs_bound 255 x y). lia.
  - pose proof (mul_abs_bound 32768 x y). lia.
  - pose proof (mul_abs_bound 65535 x y). lia.
  - pose proof (mul_abs_bound 2147483648 x y). lia.
  - pose proof (mul_abs_bound 4294967295 x y). lia.
Qed.

Lemma well_formed_widened (ft : fixed_type) :
  well_formed ft = true ->
  widened_raw_type ft <> Void ->
  well_formed (widened_fixed_type ft) = true.
Proof.
  intros Hwf Hw. destruct (well_formed_spec ft Hwf) as (Hv & Hb & HI).
  unfold well_formed, widened_fixed_type, widened_raw_type in *.
  cbn [raw_type integral_bits fractional_bits].
  apply andb_true_intro; split; [apply andb_true_intro; split | ].
  - destruct (raw_type ft); cbn in Hw; try congruence; reflexivity.
  - apply N.eqb_eq.
    destruct (raw_type ft); cbn in Hw; try congruence; cbn in Hb |- *; lia.
  - apply N.ltb_lt. lia.
Qed.

(** C1: the product of two values of one non-widened type, when a widened
    raw type exists, has the widened companion type
    [fixed_point<Raw2, 2I, 2F, true>], and its raw value is the exact
    product of the two raw values, computed in [Raw2] without loss. *)
Theorem mul_is_widening (a b : fixed_point) :
  well_formed (ftype a) = true ->
  ftype b = ftype a ->
  is_widened (ftype a) = false ->
  fixed_point_widened_raw_type (raw_type (ftype a)) <> Void ->
  has_raw_value a ->
  has_raw_value b ->
  mul_fixed_fixed_enabled (ftype a) (ftype b) = true
  /\ exists w : fixed_point,
       mul_fixed_fixed a b = Ok w
       /\ ftype w = FixedType (fixed_point_widened_raw_type (raw_type (ftype a)))
                              (integral_bits (ftype a) * 2)
                              (fractional_bits (ftype a) * 2) true
       /\ value w = value a * value b
       /\ has_raw_value w.
Proof.
  intros Hwf E Hnw Hw Ha Hb. split.
  - unfold mul_fixed_fixed_enabled. rewrite E, Hnw. cbn.
    unfold fixed_type_eqb.
    rewrite N.eqb_refl, N.eqb_refl, eqb_reflx, !andb_true_r.
    destruct (raw_type (ftype a)); reflexivity.
  - unfold has_raw_value in *. rewrite E in Hb.
    destruct (widened_product_in_range _ _ _ Hw Ha Hb) as (Hxa & Hxb & Hxy).
    unfold mul_fixed_fixed, construct.
    rewrite (well_formed_widened _ Hwf Hw).
    unfold widened_raw_type.
    destruct (is_void (fixed_point_widened_raw_type (raw_type (ftype a)))) eqn:Hvoid.
    { destruct (fixed_point_widened_raw_type (raw_type (ftype a)));
        try discriminate; congruence. }
    eexists. split; [reflexivity | ].
    assert (Hv : cnum (static_cast (raw_type (widened_fixed_type (ftype a)))
                   (mul (static_cast (fixed_point_widened_raw_type (raw_type (ftype a))) (raw a))
                        (static_cast (fixed_point_widened_raw_type (raw_type (ftype a))) (raw b))))
                 = value a * value b).
    { unfold mul, arith, static_cast, raw. cbn [cty cnum raw_type widened_fixed_type].
      unfold widened_raw_type.
      set (W := fixed_point_widened_raw_type (raw_type (ftype a))) in *.
      rewrite common_type_diag.
      rewrite (wrap_in_range W (value a)), (wrap_in_range W (value b)) by assumption.
      rewrite (wrap_promote W (value a)), (wrap_promote W (value b)) by assumption.
      rewrite wrap_promote by assumption.
      apply wrap_in_range; assumption. }
    unfold FIXED_POINT_RAW. cbn [ftype value]. rewrite Hv.
    split; [reflexivity | split; [reflexivity | exact Hxy]].
Qed.

Lemma mul_is_widening_witness :
  mul_fixed_fixed_enabled (FixedType Int32 16 16 false) (FixedType Int32 16 16 false) = true
  /\ exists w : fixed_point,
       mul_fixed_fixed (FixedPoint (FixedType Int32 16 16 false) 98304)
                       (FixedPoint (FixedType Int32 16 16 false) 131072) = Ok w
       /\ ftype w = FixedType Int64 32 32 true
       /\ value w = 98304 * 131072
       /\ has_raw_value w.
Proof.
  exact (mul_is_widening
           (FixedPoint (FixedType Int32 16 16 false) 98304)
           (FixedPoint (FixedType Int32 16 16 false) 131072)
           eq_refl eq_refl eq_refl
           ltac:(discriminate)
           ltac:(vm_compute; split; discriminate)
           ltac:(vm_compute; split; discriminate)).
Defined.

(** The product 1.5 * 2.0 in the 16.16 format, narrowed back, is 3.0; a
    64-bit raw type has no widened companion and its product is rejected. *)
Example mul_then_narrow :
  (w <- mul_fixed_fixed (FixedPoint (FixedType Int32 16 16 false) 98304)
                        (FixedPoint (FixedType Int32 16 16 false) 131072) ;;
   convert_to (FixedType Int32 16 16 false) w)
  = Ok (FixedPoint (FixedType Int32 16 16 false) 196608).
Proof. reflexivity. Qed.

Example mul_without_widened_type :
  mul_fixed_fixed (FixedPoint (FixedType Int64 32 32 false) 1)
                  (FixedPoint (FixedType Int64 32 32 false) 1) = IllFormed.
Proof. reflexivity. Qed.

Lemma fixed_type_eqb_refl (ft : fixed_type) : fixed_type_eqb ft ft = true.
Proof.
  unfold fixed_type_eqb.
  rewrite !N.eqb_refl, eqb_reflx, !andb_true_r.
  destruct (raw_type ft); reflexivity.
Qed.

Lemma fixed_type_eqb_eq (x y : fixed_type) :
  fixed_type_eqb x y = true -> x = y.
Proof.
  unfold fixed_type_eqb. intros H.
  apply andb_prop in H as [H Hw]. apply andb_prop in H as [H Hf].
  apply andb_prop in H as [Hr Hi].
  apply N.eqb_eq in Hi, Hf. apply eqb_prop in Hw.
  destruct x as [xr xi xf xw], y as [yr yi yf yw]; cbn in *. subst.
  destruct xr, yr; try discriminate; reflexivity.
Qed.

Lemma bit_width_widened (t : raw_ty) :
  fixed_point_widened_raw_type t <> Void ->
  (bit_width t <= bit_width (fixed_point_widened_raw_type t))%N.
Proof.
  intros Hw. destruct t; cbn in *; try congruence; lia.
Qed.

(** The dividend scaled by [2^F] still fits the widened raw type. *)
Lemma prescale_in_range (t : raw_ty) (x p : Z) :
  fixed_point_widened_raw_type t <> Void ->
  in_range t x ->
  1 <= p <= 2 ^ (Z.of_N (bit_width t) - 1) ->
  in_range (fixed_point_widened_raw_type t) (x * p).
Proof.
  intros Hw Hx Hp.
  destruct t; cbn in Hw; try congruence; unfold_range; cbn in *.
  - pose proof (mul_abs_bound 128 x p). lia.
  - pose proof (mul_abs_bound 255 x p). nia.
  - pose proof (mul_abs_bound 32768 x p). lia.
  - pose proof (mul_abs_bound 65535 x p). nia.
  - pose proof (mul_abs_bound 2147483648 x p). lia.
  - pose proof (mul_abs_bound 4294967295 x p). nia.
Qed.

Lemma pow2_fractional_bound (ft : fixed_type) :
  well_formed ft = true ->
  1 <= 2 ^ Z.of_N (fractional_bits ft)
    <= 2 ^ (Z.of_N (bit_width (raw_type ft)) - 1).
Proof.
  intros Hwf. pose proof (fractional_bits_lt_width ft Hwf) as HF. split.
  - assert (0 < 2 ^ Z.of_N (fractional_bits ft)) by (apply Z.pow_pos_nonneg; lia).
    lia.
  - apply Z.pow_le_mono_r; lia.
Qed.

Lemma common_type_widened (t : raw_ty) :
  fixed_point_widened_raw_type t <> Void ->
  common_type (promote (promote (fixed_point_widened_raw_type t))) (promote t)
  = promote (fixed_point_widened_raw_type t).
Proof. destruct t; cbn; congruence. Qed.

Lemma in_range_promote_widened (t : raw_ty) (z : Z) :
  fixed_point_widened_raw_type t <> Void ->
  in_range t z -> in_range (promote (fixed_point_widened_raw_type t)) z.
Proof.
  intros Hw H. destruct t; cbn in Hw; try congruence; unfold_range; cbn in *; lia.
Qed.

Lemma wrap_wrap_promote_widened (t : raw_ty) (z : Z) :
  fixed_point_widened_raw_type t <> Void ->
  wrap t (wrap (promote (fixed_point_widened_raw_type t)) z) = wrap t z.
Proof.
  intros Hw. destruct t; cbn in Hw; try congruence; unfold_range; cbn; euclid.
Qed.

(** The dividend scaled by [2^F] stays clear of the most negative value of
    the widened raw type, so its quotient by a raw value is representable
    in the type the division is carried out in. *)
Lemma prescale_above_min (t : raw_ty) (x p : Z) :
  fixed_point_widened_raw_type t <> Void ->
  in_range t x ->
  1 <= p <= 2 ^ (Z.of_N (bit_width t) - 1) ->
  is_signed (promote (fixed_point_widened_raw_type t)) = true ->
  numeric_min (promote (fixed_point_widened_raw_type t)) < x * p.
Proof.
  intros Hw Hx Hp Hs.
  destruct t; cbn in Hw, Hs; try congruence; unfold_range; cbn in *.
  - pose proof (mul_abs_bound 128 x p). lia.
  - nia.
  - pose proof (mul_abs_bound 32768 x p). lia.
  - pose proof (mul_abs_bound 2147483648 x p). lia.
Qed.

Lemma quot_scaled_in_range (ft : fixed_type) (x y : Z) :
  well_formed ft = true ->
  fixed_point_widened_raw_type (raw_type ft) <> Void ->
  in_range (raw_type ft) x ->
  in_range (raw_type ft) y ->
  y <> 0 ->
  in_range (promote (fixed_point_widened_raw_type (raw_type ft)))
    (Z.quot (x * 2 ^ Z.of_N (fractional_bits ft)) y).
Proof.
  intros Hwf Hw Hx Hy Hnz.
  pose proof (pow2_fractional_bound _ Hwf) as Hp.
  apply quot_in_range; try exact Hnz.
  - apply in_range_promote, prescale_in_range; assumption.
  - apply in_range_promote_widened; assumption.
  - intros Hs. apply prescale_above_min; assumption.
Qed.

(** C3: the quotient of two values of one non-widened type has that type;
    its raw value is [(widen (a.raw) << F) / b.raw] stored into the raw
    type, where the shift by [F] happens in the widened raw type and loses
    no bit. *)
Theorem div_prescales_dividend (a b : fixed_point) :
  well_formed (ftype a) = true ->
  ftype b = ftype a ->
  is_widened (ftype a) = false ->
  fixed_point_widened_raw_type (raw_type (ftype a)) <> Void ->
  has_raw_value a ->
  has_raw_value b ->
  value b <> 0 ->
  let F := Z.of_N (fractional_bits (ftype a)) in
  let dividend := Z.shiftl (value a) F in
  in_range (fixed_point_widened_raw_type (raw_type (ftype a))) dividend
  /\ dividend = value a * 2 ^ F
  /\ exists q : fixed_point,
       operator_div a b = Ok q
       /\ ftype q = ftype a
       /\ value q = wrap (raw_type (ftype a)) (Z.quot dividend (value b))
       /\ (in_range (raw_type (ftype a)) (Z.quot dividend (value b)) ->
           value q = Z.quot dividend (value b)).
Proof.
  intros Hwf E Hnw Hw Ha Hb Hnz F dividend.
  unfold has_raw_value in *. rewrite E in Hb.
  assert (Hd : dividend = value a * 2 ^ F)
    by (unfold dividend, F; apply Z.shiftl_mul_pow2; lia).
  assert (Hr : in_range (fixed_point_widened_raw_type (raw_type (ftype a))) dividend).
  { rewrite Hd. apply prescale_in_range; try assumption.
    apply pow2_fractional_bound, Hwf. }
  split; [exact Hr | split; [exact Hd | ]].
  assert (Hq : operator_div a b
               = Ok (FixedPoint (ftype a)
                       (wrap (raw_type (ftype a)) (Z.quot dividend (value b))))).
  { unfold operator_div. rewrite E, fixed_type_eqb_refl, Hnw.
    unfold div_fixed_fixed, widened_raw_type.
    assert (Hvoid : is_void (fixed_point_widened_raw_type (raw_type (ftype a))) = false)
      by (destruct (fixed_point_widened_raw_type (raw_type (ftype a))) eqn:EW;
          [congruence | reflexivity ..]).
    rewrite Hvoid.
    set (W := fixed_point_widened_raw_type (raw_type (ftype a))) in *.
    pose proof (fractional_bits_lt_width _ Hwf) as HF.
    pose proof (bit_width_promote W) as HP.
    pose proof (bit_width_widened _ Hw) as HW. fold W in HW.
    rewrite shl_ok by (cbn [static_cast cty]; lia).
    cbn [bind static_cast cty cnum].
    change (cnum (raw a)) with (value a).
    assert (Hxa : in_range W (value a)).
    { pose proof (prescale_in_range _ (value a) 1 Hw Ha) as H1.
      rewrite Z.mul_1_r in H1. apply H1.
      pose proof (pow2_fractional_bound _ Hwf). lia. }
    rewrite (wrap_in_range W (value a)) by exact Hxa.
    rewrite (wrap_promote W (value a)) by exact Hxa.
    fold F. fold dividend.
    rewrite (wrap_promote W dividend) by exact Hr.
    unfold div, raw. cbn [cty cnum]. rewrite E. subst W.
    rewrite common_type_widened by exact Hw.
    rewrite (wrap_in_range _ (value b))
      by (apply in_range_promote_widened; assumption).
    rewrite (wrap_in_range _ dividend) by (apply in_range_promote, Hr).
    destruct (Z.eqb_spec (value b) 0) as [Hz | _]; [contradiction | ].
    rewrite (proj2 (in_rangeb_spec _ _))
      by (rewrite Hd; apply quot_scaled_in_range; assumption).
    cbn [bind]. reflexivity. }
  eexists. split; [exact Hq | ].
  cbn [ftype value]. split; [reflexivity | split; [reflexivity | ]].
  intros Hin. apply wrap_in_range, Hin.
Qed.

Lemma div_prescales_dividend_witness :
  exists q : fixed_point,
    operator_div (FixedPoint (FixedType Int32 16 16 false) 65536)
                 (FixedPoint (FixedType Int32 16 16 false) 131072) = Ok q
    /\ ftype q = FixedType Int32 16 16 false
    /\ value q = 32768.
Proof.
  destruct (div_prescales_dividend
              (FixedPoint (FixedType Int32 16 16 false) 65536)
              (FixedPoint (FixedType Int32 16 16 false) 131072)
              eq_refl eq_refl eq_refl
              ltac:(discriminate)
              ltac:(vm_compute; split; discriminate)
              ltac:(vm_compute; split; discriminate)
              ltac:(discriminate))
    as (_ & _ & q & Hq & Ht & Hv & _).
  exists q. split; [exact Hq | split; [exact Ht | exact Hv]].
Defined.

Lemma in_range_pow2 (t : raw_ty) (z : Z) :
  t <> Void ->
  (in_range t z <->
   if is_signed t
   then - 2 ^ (Z.of_N (bit_width t) - 1) <= z < 2 ^ (Z.of_N (bit_width t) - 1)
   else 0 <= z < 2 ^ Z.of_N (bit_width t)).
Proof.
  intros Hv. destruct t; try congruence; unfold_range; cbn; lia.
Qed.

(** A value that fits the integral bits, scaled by [2^F], fits the raw type. *)
Lemma scaled_integer_in_range (ft : fixed_type) (n : Z) :
  well_formed ft = true ->
  fits_in_integral_bits ft n ->
  in_range (raw_type ft) n
  /\ in_range (raw_type ft) (n * 2 ^ Z.of_N (fractional_bits ft)).
Proof.
  intros Hwf Hfit. destruct (well_formed_spec ft Hwf) as (Hv & Hb & HI).
  rewrite !(in_range_pow2 _ _ Hv). unfold fits_in_integral_bits in Hfit.
  rewrite Hb.
  set (i := Z.of_N (integral_bits ft)) in *.
  set (f := Z.of_N (fractional_bits ft)) in *.
  assert (Hi : 1 <= i) by (subst i; lia).
  assert (Hf : 0 <= f) by (subst f; lia).
  replace (Z.of_N (integral_bits ft + fractional_bits ft)) with (i + f)
    by (subst i f; lia).
  assert (Hpf : 1 <= 2 ^ f)
    by (assert (0 < 2 ^ f) by (apply Z.pow_pos_nonneg; lia); lia).
  destruct (is_signed (raw_type ft)).
  - replace (i + f - 1) with ((i - 1) + f) by lia.
    rewrite Z.pow_add_r by lia.
    assert (0 < 2 ^ (i - 1)) by (apply Z.pow_pos_nonneg; lia).
    split; nia.
  - rewrite Z.pow_add_r by lia.
    assert (0 < 2 ^ i) by (apply Z.pow_pos_nonneg; lia).
    split; nia.
Qed.

(** C4: constructing a fixed_point from an integer [n] and converting it
    back to the integer type gives [(Raw)n << F >> F], the shifts being
    taken on the raw storage; this is [n] itself whenever [n] fits in the
    [I] integral bits. *)
Theorem integer_round_trip (ft : fixed_type) (otherT : raw_ty) (n : Z) :
  well_formed ft = true ->
  otherT <> Void ->
  in_range otherT n ->
  let Raw := raw_type ft in
  let F := Z.of_N (fractional_bits ft) in
  exists x : fixed_point,
    of_integral ft (CVal otherT n) = Ok x
    /\ ftype x = ft
    /\ value x = wrap Raw (Z.shiftl (wrap Raw n) F)
    /\ to_integral otherT x
       = Ok (CVal otherT
               (wrap otherT (Z.shiftr (wrap Raw (Z.shiftl (wrap Raw n) F)) F)))
    /\ (fits_in_integral_bits ft n -> to_integral otherT x = Ok (CVal otherT n)).
Proof.
  intros Hwf Hother Hn Raw F.
  assert (Hint : is_integral otherT = true)
    by (destruct otherT; [congruence | reflexivity ..]).
  pose proof (fractional_bits_lt_width ft Hwf) as HF.
  pose proof (bit_width_promote (raw_type ft)) as HP.
  assert (Hfrom : of_integral ft (CVal otherT n)
                  = Ok (FixedPoint ft (wrap Raw (Z.shiftl (wrap Raw n) F)))).
  { unfold of_integral, cast_integral_from. rewrite Hwf. cbn [cty]. rewrite Hint.
    rewrite shl_ok by (cbn [static_cast cty]; lia).
    cbn [bind static_cast cty cnum]. fold Raw F.
    rewrite (wrap_promote Raw (wrap Raw n)) by apply in_range_wrap.
    rewrite wrap_wrap_promote. reflexivity. }
  assert (Hto : forall v, in_range Raw v ->
                to_integral otherT (FixedPoint ft v)
                = Ok (CVal otherT (wrap otherT (Z.shiftr v F)))).
  { intros v Hv. unfold to_integral, cast_integral_to. rewrite Hint.
    rewrite shr_ok by (cbn [raw ftype cty]; lia).
    cbn [bind static_cast raw ftype value cty cnum]. fold Raw F.
    rewrite (wrap_promote Raw v) by exact Hv.
    rewrite wrap_promote by (apply in_range_shiftr; [subst F; lia | exact Hv]).
    reflexivity. }
  exists (FixedPoint ft (wrap Raw (Z.shiftl (wrap Raw n) F))).
  split; [exact Hfrom | ].
  split; [reflexivity | ].
  split; [reflexivity | ].
  split; [apply Hto, in_range_wrap | ].
  intros Hfit. rewrite Hto by apply in_range_wrap.
  destruct (scaled_integer_in_range ft n Hwf Hfit) as (Hrn & Hrs).
  fold Raw F in Hrn, Hrs.
  rewrite (wrap_in_range Raw n) by exact Hrn.
  rewrite Z.shiftl_mul_pow2 by (subst F; lia).
  rewrite (wrap_in_range Raw _) by exact Hrs.
  rewrite <- Z.shiftl_mul_pow2 by (subst F; lia).
  rewrite Z.shiftr_shiftl_l by (subst F; lia).
  rewrite Z.sub_diag, Z.shiftl_0_r.
  rewrite wrap_in_range by exact Hn. reflexivity.
Qed.

Lemma integer_round_trip_witness :
  exists x : fixed_point,
    of_integral (FixedType Int8 4 4 false) (CVal Int32 (-7)) = Ok x
    /\ value x = -112
    /\ to_integral Int32 x = Ok (CVal Int32 (-7)).
Proof.
  destruct (integer_round_trip (FixedType Int8 4 4 false) Int32 (-7)
              eq_refl ltac:(discriminate) ltac:(vm_compute; split; discriminate))
    as (x & Hx & _ & Hv & _ & Hfit).
  exists x. split; [exact Hx | split; [exact Hv | ]].
  apply Hfit. vm_compute. split; [discriminate | reflexivity].
Defined.

(** An integer that does not fit the integral bits does not come back:
    [100] stored in a 4.4 format returns as [4]. *)
Example round_trip_of_wide_integer :
  (x <- of_integral (FixedType Int8 4 4 false) (CVal Int32 100) ;;
   to_integral Int32 x) = Ok (CVal Int32 4).
Proof. reflexivity. Qed.

Lemma wrap_idem (t : raw_ty) (z : Z) : wrap t (wrap t z) = wrap t z.
Proof. apply wrap_in_range, in_range_wrap. Qed.

Lemma construct_ok (ft : fixed_type) (x : cval) :
  well_formed ft = true ->
  construct ft x = Ok (FixedPoint ft (wrap (raw_type ft) (cnum x))).
Proof. intros H. unfold construct. rewrite H. reflexivity. Qed.

Lemma convert_to_value (dest : fixed_type) (a : fixed_point) :
  well_formed (ftype a) = true ->
  well_formed dest = true ->
  has_raw_value a ->
  let destT := raw_type dest in
  let destF := fractional_bits dest in
  let F := fractional_bits (ftype a) in
  exists r : fixed_point,
    convert_to dest a = Ok r
    /\ ftype r = dest
    /\ ((F < destF)%N ->
        value r = wrap destT (Z.shiftl (wrap destT (value a)) (Z.of_N (destF - F))))
    /\ ((destF < F)%N ->
        value r = wrap destT (Z.shiftr (value a) (Z.of_N (F - destF))))
    /\ (destF = F -> value r = wrap destT (value a)).
Proof.
  intros Hsrc Hdest Ha destT destF F. unfold has_raw_value in Ha.
  pose proof (fractional_bits_lt_width _ Hsrc) as HF.
  pose proof (fractional_bits_lt_width _ Hdest) as HdF.
  pose proof (bit_width_promote (raw_type (ftype a))) as HP.
  pose proof (bit_width_promote (raw_type dest)) as HdP.
  fold destF in HdF. fold F in HF. fold destT in HdF, HdP.
  unfold convert_to. fold destT destF F.
  destruct (N.eqb_spec destF F) as [Heq | Hne].
  - rewrite construct_ok by exact Hdest.
    eexists. split; [reflexivity | ].
    cbn [ftype value static_cast cnum raw]. fold destT.
    rewrite wrap_idem.
    repeat split; try reflexivity; intros; lia.
  - destruct (N.ltb_spec F destF) as [Hlt | Hge].
    + rewrite shl_ok by (cbn [static_cast cty]; fold destT; lia).
      cbn [bind]. rewrite construct_ok by exact Hdest.
      eexists. split; [reflexivity | ].
      cbn [ftype value static_cast cnum cty raw]. fold destT.
      rewrite (wrap_promote destT (wrap destT (value a))) by apply in_range_wrap.
      rewrite wrap_wrap_promote.
      repeat split; try reflexivity; intros; lia.
    + rewrite shr_ok by (cbn [raw cty]; lia).
      cbn [bind]. rewrite construct_ok by exact Hdest.
      eexists. split; [reflexivity | ].
      cbn [ftype value static_cast cnum cty raw]. fold destT.
      rewrite (wrap_promote _ (value a)) by exact Ha.
      rewrite wrap_promote by (apply in_range_shiftr; [lia | exact Ha]).
      rewrite wrap_idem.
      repeat split; try reflexivity; intros; lia.
Qed.

(** C5: a conversion between two fixed_point types casts the raw value to
    the destination raw type and then shifts left when the destination has
    more fractional bits, shifts right in the source raw type and then casts
    when it has fewer, and only casts when the counts agree. *)
Theorem convert_to_shift_order (dest : fixed_type) (a : fixed_point) :
  well_formed (ftype a) = true ->
  well_formed dest = true ->
  has_raw_value a ->
  let destT := raw_type dest in
  let destF := fractional_bits dest in
  let F := fractional_bits (ftype a) in
  exists r : fixed_point,
    convert_to dest a = Ok r
    /\ ftype r = dest
    /\ ((F < destF)%N ->
        value r = wrap destT (Z.shiftl (wrap destT (value a)) (Z.of_N (destF - F))))
    /\ ((destF < F)%N ->
        value r = wrap destT (Z.shiftr (value a) (Z.of_N (F - destF))))
    /\ (destF = F -> value r = wrap destT (value a)).
Proof.
  intros Hsrc Hdest Ha. exact (convert_to_value dest a Hsrc Hdest Ha).
Qed.

Lemma convert_to_shift_order_witness :
  (exists r : fixed_point,
     convert_to (FixedType Int32 8 24 false)
                (FixedPoint (FixedType Int32 16 16 false) 98304) = Ok r
     /\ value r = 25165824)
  /\ (exists r : fixed_point,
        convert_to (FixedType Int32 16 16 false)
                   (FixedPoint (FixedType Int64 32 32 true) 12884901888) = Ok r
        /\ value r = 196608).
Proof.
  split.
  - destruct (convert_to_shift_order (FixedType Int32 8 24 false)
                (FixedPoint (FixedType Int32 16 16 false) 98304)
                eq_refl eq_refl ltac:(vm_compute; split; discriminate))
      as (r & Hr & _ & Hmore & _).
    exists r. split; [exact Hr | ]. apply Hmore. reflexivity.
  - destruct (convert_to_shift_order (FixedType Int32 16 16 false)
                (FixedPoint (FixedType Int64 32 32 true) 12884901888)
                eq_refl eq_refl ltac:(vm_compute; split; discriminate))
      as (r & Hr & _ & _ & Hfewer & _).
    exists r. split; [exact Hr | ]. apply Hfewer. reflexivity.
Defined.

(** The order matters at a narrower destination: shifting before the cast
    keeps the integral bits that casting first would cut off. *)
Example convert_to_shift_before_cast :
  convert_to (FixedType Int16 8 8 false)
             (FixedPoint (FixedType Int32 16 16 false) 6553600)
  = Ok (FixedPoint (FixedType Int16 8 8 false) 25600)
  /\ wrap Int16 (Z.shiftr (wrap Int16 6553600) 8) = 0.
Proof. split; reflexivity. Qed.

(** [(raw_type (1) << F) - 1] is [2^F - 1], also when [1 << F] reaches the
    sign bit of the promoted type. *)
Lemma fractional_mask_wrap (t : raw_ty) (p : Z) :
  t <> Void ->
  1 <= p <= 2 ^ (Z.of_N (bit_width t) - 1) ->
  wrap t (wrap (promote t) (wrap (promote t) (wrap (promote t) p) - 1))
  = p - 1.
Proof.
  intros Hv Hp. destruct t; try congruence; unfold_range; cbn in *; euclid.
Qed.

Lemma wrap_one (t : raw_ty) : t <> Void -> wrap t 1 = 1.
Proof. intros Hv. destruct t; try congruence; reflexivity. Qed.

Lemma common_type_promote_int (t : raw_ty) :
  t <> Void -> common_type (promote (promote t)) (promote Int32) = promote t.
Proof. intros Hv. destruct t; try congruence; reflexivity. Qed.

(** The mask initializers are constant expressions exactly when [1 << F]
    fits the promoted raw type. *)
Lemma pow2_in_range (t : raw_ty) (f : Z) :
  0 <= f < Z.of_N (digits t) ->
  in_range t (2 ^ f) /\ in_range t (2 ^ f - 1).
Proof.
  intros Hf.
  assert (H0 : 0 < 2 ^ f) by (apply Z.pow_pos_nonneg; lia).
  assert (H1 : 2 ^ f < 2 ^ Z.of_N (digits t)) by (apply Z.pow_lt_mono_r; lia).
  unfold in_range, numeric_min, numeric_max.
  destruct (is_signed t); lia.
Qed.

Lemma fractional_mask_in_range (ft : fixed_type) :
  well_formed ft = true ->
  in_range (raw_type ft) (2 ^ Z.of_N (fractional_bits ft) - 1).
Proof.
  intros Hwf. destruct (well_formed_spec ft Hwf) as (Hv & _).
  pose proof (fractional_bits_lt_width ft Hwf) as HF.
  pose proof (pow2_fractional_bound ft Hwf) as Hp.
  apply in_range_pow2; [exact Hv | ].
  destruct (is_signed (raw_type ft)); [lia | ].
  assert (2 ^ (Z.of_N (bit_width (raw_type ft)) - 1)
          <= 2 ^ Z.of_N (bit_width (raw_type ft)))
    by (apply Z.pow_le_mono_r; lia).
  lia.
Qed.

Lemma fractional_mask_value (ft : fixed_type) :
  well_formed ft = true ->
  (fractional_bits ft < digits (promote (raw_type ft)))%N ->
  fractional_mask ft
  = Ok (CVal (raw_type ft) (2 ^ Z.of_N (fractional_bits ft) - 1)).
Proof.
  intros Hwf Hc. destruct (well_formed_spec ft Hwf) as (Hv & _).
  pose proof (fractional_bits_lt_width ft Hwf) as HF.
  pose proof (bit_width_promote (raw_type ft)) as HP.
  destruct (pow2_in_range (promote (raw_type ft)) (Z.of_N (fractional_bits ft)))
    as (Hone & Hm); [lia | ].
  unfold fractional_mask.
  rewrite shl_ok by (cbn [static_cast cty]; lia).
  cbn [constant_expression bind static_cast cty cnum lit].
  unfold constexpr_arith, static_cast, lit. cbn [cty cnum].
  rewrite common_type_promote_int by exact Hv.
  rewrite (wrap_one _ Hv).
  replace (wrap (promote (raw_type ft)) 1) with 1
    by (destruct (raw_type ft); try congruence; reflexivity).
  rewrite Z.shiftl_1_l.
  rewrite !(wrap_in_range _ _ Hone).
  rewrite (proj2 (in_rangeb_spec _ _) Hm). rewrite andb_false_r.
  cbn [bind cnum]. rewrite (wrap_in_range _ _ Hm).
  rewrite (wrap_in_range _ _ (fractional_mask_in_range ft Hwf)). reflexivity.
Qed.

(** Otherwise, with a signed 32- or 64-bit raw type and a single integral
    bit, the initializer overflows and the masks are rejected. *)
Lemma fractional_mask_rejected (ft : fixed_type) :
  well_formed ft = true ->
  ~ (fractional_bits ft < digits (promote (raw_type ft)))%N ->
  fractional_mask ft = IllFormed /\ integral_mask ft = IllFormed.
Proof.
  intros Hwf Hc.
  pose proof (fractional_bits_lt_width ft Hwf) as HF.
  assert (Hm : fractional_mask ft = IllFormed).
  { destruct ft as [t i f w]. cbn [raw_type fractional_bits] in *.
    destruct t; cbn in HF, Hc; try lia.
    - assert (f = 31%N) by lia. subst f. reflexivity.
    - assert (f = 63%N) by lia. subst f. reflexivity. }
  split; [exact Hm | ]. unfold integral_mask. rewrite Hm. reflexivity.
Qed.

Lemma integral_mask_value (ft : fixed_type) :
  well_formed ft = true ->
  (fractional_bits ft < digits (promote (raw_type ft)))%N ->
  integral_mask ft
  = Ok (CVal (raw_type ft)
          (wrap (raw_type ft) (- 2 ^ Z.of_N (fractional_bits ft)))).
Proof.
  intros Hwf Hc. destruct (well_formed_spec ft Hwf) as (Hv & _).
  unfold integral_mask. rewrite fractional_mask_value by assumption.
  cbn [bind]. unfold bnot, static_cast. cbn [cty cnum].
  rewrite wrap_wrap_promote.
  rewrite (wrap_promote _ _ (fractional_mask_in_range ft Hwf)).
  replace (Z.lnot (2 ^ Z.of_N (fractional_bits ft) - 1))
    with (- 2 ^ Z.of_N (fractional_bits ft)) by (unfold Z.lnot; lia).
  reflexivity.
Qed.

(** ANDing with the integral mask clears the [f] low bits. *)
Lemma land_integral_mask (t : raw_ty) (v f : Z) :
  t <> Void ->
  0 <= f < Z.of_N (bit_width t) ->
  in_range t v ->
  Z.land v (wrap t (- 2 ^ f)) = Z.shiftl (Z.shiftr v f) f.
Proof.
  intros Hv Hf Hin.
  rewrite <- Z.ldiff_ones_r by lia.
  rewrite Z.ldiff_land.
  replace (Z.lnot (Z.ones f)) with (- 2 ^ f)
    by (rewrite Z.ones_equiv; unfold Z.lnot; lia).
  destruct (is_signed t) eqn:Hs.
  - f_equal. apply wrap_in_range. apply in_range_pow2; [exact Hv | ].
    rewrite Hs.
    assert (0 < 2 ^ f) by (apply Z.pow_pos_nonneg; lia).
    assert (2 ^ f <= 2 ^ (Z.of_N (bit_width t) - 1))
      by (apply Z.pow_le_mono_r; lia).
    lia.
  - apply (in_range_pow2 _ _ Hv) in Hin. rewrite Hs in Hin.
    unfold wrap, modulus. rewrite Hs.
    apply Z.bits_inj'. intros i Hi.
    rewrite !Z.land_spec.
    destruct (Z.ltb_spec i (Z.of_N (bit_width t))) as [Hlow | Hhigh].
    + rewrite Z.mod_pow2_bits_low by lia. reflexivity.
    + replace (Z.testbit v i) with false; [reflexivity | ].
      symmetry. rewrite <- (Z.mod_small v (2 ^ Z.of_N (bit_width t))) by lia.
      apply Z.mod_pow2_bits_high. lia.
Qed.

Lemma in_range_clear_low_bits (t : raw_ty) (v f : Z) :
  t <> Void ->
  0 <= f < Z.of_N (bit_width t) ->
  in_range t v ->
  in_range t (Z.shiftl (Z.shiftr v f) f).
Proof.
  intros Hv Hf Hin.
  rewrite Z.shiftr_div_pow2, Z.shiftl_mul_pow2 by lia.
  assert (Hp : 0 < 2 ^ f) by (apply Z.pow_pos_nonneg; lia).
  pose proof (Z.mod_pos_bound v (2 ^ f) Hp) as Hm.
  pose proof (Z.div_mod v (2 ^ f) ltac:(lia)) as Hdm.
  apply (in_range_pow2 _ _ Hv). apply (in_range_pow2 _ _ Hv) in Hin.
  destruct (is_signed t).
  - assert (Hsplit : 2 ^ (Z.of_N (bit_width t) - 1)
                     = 2 ^ (Z.of_N (bit_width t) - 1 - f) * 2 ^ f)
      by (rewrite <- Z.pow_add_r by lia; f_equal; lia).
    assert (Hlow : - 2 ^ (Z.of_N (bit_width t) - 1 - f) <= v / 2 ^ f).
    { apply Z.div_le_lower_bound; [exact Hp | ]. lia. }
    nia.
  - assert (0 <= v / 2 ^ f) by (apply Z.div_pos; lia).
    nia.
Qed.

(** Where the masks are rejected, so is [trunc]. *)
Lemma trunc_rejected (a : fixed_point) :
  well_formed (ftype a) = true ->
  ~ (fractional_bits (ftype a) < digits (promote (raw_type (ftype a))))%N ->
  trunc a = IllFormed.
Proof.
  intros Hwf Hc. unfold trunc.
  rewrite (proj2 (fractional_mask_rejected _ Hwf Hc)). reflexivity.
Qed.



Lemma common_type_narrowed (t : raw_ty) :
  fixed_point_narrowed_raw_type t <> Void ->
  common_type (promote t) (promote (fixed_point_narrowed_raw_type t)) = promote t.
Proof. destruct t; cbn; congruence. Qed.

Lemma in_range_promote_narrowed (t : raw_ty) (z : Z) :
  fixed_point_narrowed_raw_type t <> Void ->
  in_range (fixed_point_narrowed_raw_type t) z -> in_range (promote t) z.
Proof.
  intros Hn H. destruct t; cbn in Hn; try congruence; unfold_range; cbn in *; lia.
Qed.

Lemma wrap_narrowed_wrap_promote (t : raw_ty) (z : Z) :
  fixed_point_narrowed_raw_type t <> Void ->
  wrap (fixed_point_narrowed_raw_type t) (wrap (promote t) z)
  = wrap (fixed_point_narrowed_raw_type t) z.
Proof.
  intros Hn. destruct t; cbn in Hn; try congruence; unfold_range; cbn; euclid.
Qed.

(** [widened / fixed]: the widened raw value is divided as it is, in the
    promoted widened raw type, which has to hold the quotient. *)
Lemma div_widened_fixed_value (w b : fixed_point) :
  well_formed (narrowed_fixed_type (ftype w)) = true ->
  ftype b = narrowed_fixed_type (ftype w) ->
  has_raw_value w ->
  has_raw_value b ->
  value b <> 0 ->
  in_range (promote (raw_type (ftype w))) (Z.quot (value w) (value b)) ->
  div_widened_fixed w b
  = Ok (FixedPoint (narrowed_fixed_type (ftype w))
          (wrap (narrowed_raw_type (ftype w)) (Z.quot (value w) (value b)))).
Proof.
  intros Hnf Eb Hw Hb Hnz Hq. unfold has_raw_value in *.
  destruct (well_formed_spec _ Hnf) as (Hn & _).
  cbn [narrowed_fixed_type raw_type] in Hn. unfold narrowed_raw_type in *.
  rewrite Eb in Hb. cbn [narrowed_fixed_type raw_type] in Hb.
  unfold narrowed_raw_type in Hb.
  unfold div_widened_fixed, div, raw. cbn [cty cnum].
  rewrite Eb. cbn [narrowed_fixed_type raw_type]. unfold narrowed_raw_type.
  rewrite common_type_narrowed by exact Hn.
  rewrite (wrap_in_range _ (value b))
    by (apply in_range_promote_narrowed; assumption).
  rewrite (wrap_promote _ (value w)) by exact Hw.
  destruct (Z.eqb_spec (value b) 0) as [Hz | _]; [contradiction | ].
  rewrite (proj2 (in_rangeb_spec _ _) Hq).
  cbn [bind]. rewrite construct_ok by exact Hnf. reflexivity.
Qed.






(** The excluded case: the most negative 64-bit raw value divided by -1. *)
Example div_widened_overflow :
  operator_div (FixedPoint (FixedType Int64 32 32 true) (- 2 ^ 63))
               (FixedPoint (FixedType Int32 16 16 false) (-1)) = Undefined.
Proof. reflexivity. Qed.


End FixedPointFacts.

(** ** Properties of hw_reg *)

Module HwRegFacts.

Import HwReg.

Section compound.

Variable T : Type.
Variable eval_binop : binop -> T -> T -> result T.

Lemma read_rw (r : hw_reg T) :
  can_read r = true -> read r = Ok (__var (reg_var r)).
Proof. intros H. unfold read, read_tag. rewrite H. reflexivity. Qed.

(** C9: on a register with embedded storage that can be read and
    written, [reg op= v] reads the stored value [s], stores [s op v] and
    returns the register, whose capabilities are unchanged; without both
    capabilities the expression does not compile. *)
Theorem compound_assignment_read_modify_write
  (op : binop) (v : T) (r : hw_reg T) :
  (can_read r = true ->
   can_write r = true ->
   forall x : T,
     eval_binop op (__var (reg_var r)) v = Ok x ->
     exists r' : hw_reg T,
       operator_compound eval_binop op v r = Ok r'
       /\ r' = HwReg true true (HwRegVar x)
       /\ read r' = Ok x)
  /\ (can_read r && can_write r = false ->
      operator_compound eval_binop op v r = IllFormed).
Proof.
  unfold operator_compound, write_tag, read_tag, var_read, var_write.
  split.
  - intros Hr Hw x Hx. rewrite Hr, Hw. cbn [bind]. rewrite Hx. cbn [bind].
    eexists. split; [reflexivity | split; reflexivity].
  - intros H. destruct (can_write r); [ | reflexivity].
    rewrite andb_true_r in H. rewrite H. reflexivity.
Qed.

End compound.

(** [reg += 5] on an [hw_reg_rw<int32_t>] holding 7, and [+=] on a
    read-only register. *)
Lemma compound_assignment_read_modify_write_witness :
  (exists r' : hw_reg Z,
     operator_compound (integer_binop Cxx.Int32) OpAdd 5
       (HwReg true true (HwRegVar 7)) = Ok r'
     /\ r' = HwReg true true (HwRegVar 12)
     /\ read r' = Ok 12)
  /\ operator_compound (integer_binop Cxx.Int32) OpAdd 5
       (HwReg true false (HwRegVar 7)) = IllFormed.
Proof.
  split.
  - exact (proj1 (compound_assignment_read_modify_write Z
                    (integer_binop Cxx.Int32) OpAdd 5
                    (HwReg true true (HwRegVar 7)))
             eq_refl eq_refl 12 eq_refl).
  - exact (proj2 (compound_assignment_read_modify_write Z
                    (integer_binop Cxx.Int32) OpAdd 5
                    (HwReg true false (HwRegVar 7)))
             eq_refl).
Defined.

(** At an integer value type each operator is the built-in one: when the
    mathematical result fits the type, it is what the register holds. *)
Lemma integer_compound_add (t : Cxx.raw_ty) (s v : Z) :
  Cxx.in_range t s -> Cxx.in_range t v -> Cxx.in_range t (s + v) ->
  operator_compound (integer_binop t) OpAdd v (HwReg true true (HwRegVar s))
  = Ok (HwReg true true (HwRegVar (s + v))).
Proof.
  intros Hs Hv Hsv.
  unfold operator_compound, write_tag, read_tag, var_read, var_write.
  cbn [can_read can_write reg_var __var bind].
  unfold integer_binop, Cxx.add, Cxx.arith, Cxx.static_cast.
  cbn [bind Cxx.cty Cxx.cnum].
  rewrite CxxFacts.common_type_diag.
  rewrite (CxxFacts.wrap_promote t s), (CxxFacts.wrap_promote t v) by assumption.
  rewrite CxxFacts.wrap_promote by assumption.
  rewrite CxxFacts.wrap_in_range by assumption.
  reflexivity.
Qed.

End HwRegFacts.

(** ** Further facts about the integer model *)

Module CxxMore.

Import Cxx CxxFacts.

Lemma modulus_pos (t : raw_ty) : 0 < modulus t.
Proof. unfold modulus. apply Z.pow_pos_nonneg; lia. Qed.

(** [wrap t] picks the representative of a residue class modulo [2^N]. *)
Lemma wrap_mod (t : raw_ty) (z : Z) : wrap t z mod modulus t = z mod modulus t.
Proof.
  destruct t; unfold_range; cbn; euclid.
Qed.

Lemma wrap_congr (t : raw_ty) (x y : Z) :
  x mod modulus t = y mod modulus t -> wrap t x = wrap t y.
Proof.
  destruct t; unfold_range; cbn; intros H; euclid.
Qed.

Lemma wrap_multiple (t : raw_ty) (z : Z) :
  exists k : Z, wrap t z = z + k * modulus t.
Proof.
  pose proof (wrap_mod t z) as H. pose proof (modulus_pos t) as Hp.
  exists ((wrap t z - z) / modulus t).
  assert (Hd : (wrap t z - z) mod modulus t = 0).
  { rewrite Zminus_mod, H, Z.sub_diag. apply Z.mod_0_l. lia. }
  pose proof (Z.div_mod (wrap t z - z) (modulus t) ltac:(lia)) as Hdm.
  rewrite Hd in Hdm. lia.
Qed.

Lemma wrap_add_multiple (t : raw_ty) (z k : Z) :
  wrap t (z + k * modulus t) = wrap t z.
Proof.
  apply wrap_congr. apply Z.mod_add. pose proof (modulus_pos t). lia.
Qed.

Lemma wrap_add_wrap_l (t : raw_ty) (x y : Z) :
  wrap t (wrap t x + y) = wrap t (x + y).
Proof.
  destruct (wrap_multiple t x) as (k & Hk). rewrite Hk.
  replace (x + k * modulus t + y) with (x + y + k * modulus t) by lia.
  apply wrap_add_multiple.
Qed.

Lemma wrap_add_wrap_r (t : raw_ty) (x y : Z) :
  wrap t (x + wrap t y) = wrap t (x + y).
Proof.
  rewrite Z.add_comm, wrap_add_wrap_l, Z.add_comm. reflexivity.
Qed.

Lemma wrap_sub_wrap_l (t : raw_ty) (x y : Z) :
  wrap t (wrap t x - y) = wrap t (x - y).
Proof.
  destruct (wrap_multiple t x) as (k & Hk). rewrite Hk.
  replace (x + k * modulus t - y) with (x - y + k * modulus t) by lia.
  apply wrap_add_multiple.
Qed.

Lemma wrap_sub_wrap_r (t : raw_ty) (x y : Z) :
  wrap t (x - wrap t y) = wrap t (x - y).
Proof.
  destruct (wrap_multiple t y) as (k & Hk). rewrite Hk.
  replace (x - (y + k * modulus t)) with (x - y + (- k) * modulus t) by lia.
  apply wrap_add_multiple.
Qed.

Lemma wrap_opp_wrap (t : raw_ty) (x : Z) : wrap t (- wrap t x) = wrap t (- x).
Proof.
  destruct (wrap_multiple t x) as (k & Hk). rewrite Hk.
  replace (- (x + k * modulus t)) with (- x + (- k) * modulus t) by lia.
  apply wrap_add_multiple.
Qed.

Lemma wrap_mul_wrap_l (t : raw_ty) (x y : Z) :
  wrap t (wrap t x * y) = wrap t (x * y).
Proof.
  destruct (wrap_multiple t x) as (k & Hk). rewrite Hk.
  replace ((x + k * modulus t) * y) with (x * y + (k * y) * modulus t) by lia.
  apply wrap_add_multiple.
Qed.

(** A type at least as wide keeps the residue modulo the narrower width. *)
Lemma wrap_wrap_wider (t u : raw_ty) (z : Z) :
  (bit_width t <= bit_width u)%N ->
  wrap t (wrap u z) = wrap t z.
Proof.
  intros Hw. destruct (wrap_multiple u z) as (k & Hk). rewrite Hk.
  assert (Hm : modulus u = 2 ^ (Z.of_N (bit_width u) - Z.of_N (bit_width t)) * modulus t).
  { unfold modulus. rewrite <- Z.pow_add_r by lia. f_equal. lia. }
  rewrite Hm.
  replace (z + k * (2 ^ (Z.of_N (bit_width u) - Z.of_N (bit_width t)) * modulus t))
    with (z + (k * 2 ^ (Z.of_N (bit_width u) - Z.of_N (bit_width t))) * modulus t)
    by lia.
  apply wrap_add_multiple.
Qed.

(** Binary [+] and [-] on two values of one type, stored back into it. *)
Lemma add_stored (t : raw_ty) (x y : Z) :
  in_range t x -> in_range t y ->
  wrap t (cnum (add (CVal t x) (CVal t y))) = wrap t (x + y).
Proof.
  intros Hx Hy. unfold add, arith. cbn [cty cnum].
  rewrite common_type_diag.
  rewrite (wrap_promote t x), (wrap_promote t y) by assumption.
  apply wrap_wrap_promote.
Qed.

Lemma sub_stored (t : raw_ty) (x y : Z) :
  in_range t x -> in_range t y ->
  wrap t (cnum (sub (CVal t x) (CVal t y))) = wrap t (x - y).
Proof.
  intros Hx Hy. unfold sub, arith. cbn [cty cnum].
  rewrite common_type_diag.
  rewrite (wrap_promote t x), (wrap_promote t y) by assumption.
  apply wrap_wrap_promote.
Qed.

End CxxMore.

(** ** Further properties of fixed_point *)

Module FixedPointMore.

Import Cxx FixedPoint CxxFacts CxxMore FixedPointFacts.

Lemma fixed_point_eta (a : fixed_point) : FixedPoint (ftype a) (value a) = a.
Proof. destruct a; reflexivity. Qed.

Lemma operator_add_value (a b : fixed_point) :
  ftype b = ftype a -> has_raw_value a -> has_raw_value b ->
  operator_add a b
  = FixedPoint (ftype a) (wrap (raw_type (ftype a)) (value a + value b)).
Proof.
  unfold has_raw_value, operator_add, FIXED_POINT_RAW, static_cast, raw.
  intros E Ha Hb. rewrite E in *. cbn [cnum]. f_equal.
  apply add_stored; assumption.
Qed.

Lemma operator_sub_value (a b : fixed_point) :
  ftype b = ftype a -> has_raw_value a -> has_raw_value b ->
  operator_sub a b
  = FixedPoint (ftype a) (wrap (raw_type (ftype a)) (value a - value b)).
Proof.
  unfold has_raw_value, operator_sub, FIXED_POINT_RAW, static_cast, raw.
  intros E Ha Hb. rewrite E in *. cbn [cnum]. f_equal.
  apply sub_stored; assumption.
Qed.

Lemma operator_sub_assign_value (a b : fixed_point) :
  ftype b = ftype a -> has_raw_value a -> has_raw_value b ->
  operator_sub_assign a b
  = FixedPoint (ftype a) (wrap (raw_type (ftype a)) (value a - value b)).
Proof.
  unfold has_raw_value, operator_sub_assign, static_cast, raw.
  intros E Ha Hb. rewrite E in *. cbn [cnum]. f_equal.
  apply sub_stored; assumption.
Qed.

Lemma operator_neg_value (a : fixed_point) :
  has_raw_value a ->
  operator_neg a = FixedPoint (ftype a) (wrap (raw_type (ftype a)) (- value a)).
Proof.
  unfold has_raw_value, operator_neg, FIXED_POINT_RAW, static_cast, neg, raw.
  intros Ha. cbn [cnum cty]. f_equal.
  rewrite (wrap_promote _ _ Ha). apply wrap_wrap_promote.
Qed.

(** X1: addition and subtraction of two values of one type wrap around in
    the raw type, so each undoes the other; addition commutes; when the
    mathematical sum or difference of the raw values fits the raw type it
    is the raw result. *)
Theorem add_sub_round_trip (a b : fixed_point) :
  ftype b = ftype a ->
  has_raw_value a ->
  has_raw_value b ->
  operator_sub (operator_add a b) b = a
  /\ operator_add (operator_sub a b) b = a
  /\ operator_add a b = operator_add b a
  /\ (in_range (raw_type (ftype a)) (value a + value b) ->
      value (operator_add a b) = value a + value b)
  /\ (in_range (raw_type (ftype a)) (value a - value b) ->
      value (operator_sub a b) = value a - value b).
Proof.
  intros E Ha Hb.
  pose proof (operator_add_value a b E Ha Hb) as Hadd.
  pose proof (operator_sub_value a b E Ha Hb) as Hsub.
  assert (Hra : has_raw_value (operator_add a b))
    by (rewrite Hadd; apply in_range_wrap).
  assert (Hrs : has_raw_value (operator_sub a b))
    by (rewrite Hsub; apply in_range_wrap).
  assert (Eadd : ftype b = ftype (operator_add a b)) by (rewrite Hadd; exact E).
  assert (Esub : ftype b = ftype (operator_sub a b)) by (rewrite Hsub; exact E).
  repeat split.
  - rewrite (operator_sub_value _ b Eadd Hra Hb), Hadd. cbn [ftype value].
    rewrite wrap_sub_wrap_l. replace (value a + value b - value b) with (value a) by lia.
    rewrite (wrap_in_range _ _ Ha). apply fixed_point_eta.
  - rewrite (operator_add_value _ b Esub Hrs Hb), Hsub. cbn [ftype value].
    rewrite wrap_add_wrap_l. replace (value a - value b + value b) with (value a) by lia.
    rewrite (wrap_in_range _ _ Ha). apply fixed_point_eta.
  - rewrite Hadd, (operator_add_value b a (eq_sym E) Hb Ha), E, Z.add_comm.
    reflexivity.
  - intros Hin. rewrite Hadd. apply wrap_in_range, Hin.
  - intros Hin. rewrite Hsub. apply wrap_in_range, Hin.
Qed.

Lemma add_sub_round_trip_witness :
  operator_sub
    (operator_add (FixedPoint (FixedType Int8 4 4 false) 100)
                  (FixedPoint (FixedType Int8 4 4 false) 100))
    (FixedPoint (FixedType Int8 4 4 false) 100)
  = FixedPoint (FixedType Int8 4 4 false) 100
  /\ value (operator_add (FixedPoint (FixedType Int8 4 4 false) 100)
                         (FixedPoint (FixedType Int8 4 4 false) 100)) = -56.
Proof.
  split.
  - exact (proj1 (add_sub_round_trip
                    (FixedPoint (FixedType Int8 4 4 false) 100)
                    (FixedPoint (FixedType Int8 4 4 false) 100)
                    eq_refl
                    ltac:(vm_compute; split; discriminate)
                    ltac:(vm_compute; split; discriminate))).
  - reflexivity.
Defined.

(** X2: unary minus is an involution and gives the additive inverse in
    the raw type, for signed and unsigned raw types alike; subtracting is
    adding the negation. *)
Theorem neg_is_additive_inverse (a b : fixed_point) :
  ftype b = ftype a ->
  has_raw_value a ->
  has_raw_value b ->
  operator_neg (operator_neg a) = a
  /\ value (operator_add a (operator_neg a)) = 0
  /\ operator_sub a b = operator_add a (operator_neg b)
  /\ (in_range (raw_type (ftype a)) (- value a) ->
      value (operator_neg a) = - value a).
Proof.
  intros E Ha Hb.
  pose proof (operator_neg_value a Ha) as Hneg.
  pose proof (operator_neg_value b Hb) as Hnegb.
  assert (Hrn : has_raw_value (operator_neg a))
    by (rewrite Hneg; apply in_range_wrap).
  assert (Hrnb : has_raw_value (operator_neg b))
    by (rewrite Hnegb; apply in_range_wrap).
  assert (En : ftype (operator_neg a) = ftype a) by (rewrite Hneg; reflexivity).
  assert (Enb : ftype (operator_neg b) = ftype a) by (rewrite Hnegb; exact E).
  repeat split.
  - rewrite (operator_neg_value _ Hrn), Hneg. cbn [ftype value].
    rewrite wrap_opp_wrap, Z.opp_involutive, (wrap_in_range _ _ Ha).
    apply fixed_point_eta.
  - rewrite (operator_add_value a _ En Ha Hrn), Hneg. cbn [ftype value].
    rewrite wrap_add_wrap_r, Z.add_opp_diag_r. apply wrap_zero.
  - rewrite (operator_sub_value a b E Ha Hb).
    rewrite (operator_add_value a _ Enb Ha Hrnb), Hnegb. cbn [ftype value].
    rewrite E, wrap_add_wrap_r. reflexivity.
  - intros Hin. rewrite Hneg. apply wrap_in_range, Hin.
Qed.

Lemma neg_is_additive_inverse_witness :
  operator_neg (operator_neg (FixedPoint (FixedType UInt32 16 16 false) 65536))
  = FixedPoint (FixedType UInt32 16 16 false) 65536
  /\ value (operator_neg (FixedPoint (FixedType UInt32 16 16 false) 65536))
     = 4294901760.
Proof.
  split.
  - exact (proj1 (neg_is_additive_inverse
                    (FixedPoint (FixedType UInt32 16 16 false) 65536)
                    (FixedPoint (FixedType UInt32 16 16 false) 1)
                    eq_refl
                    ltac:(vm_compute; split; discriminate)
                    ltac:(vm_compute; split; discriminate))).
  - reflexivity.
Defined.

Lemma of_integral_value (ft : fixed_type) (otherT : raw_ty) (n : Z) :
  well_formed ft = true ->
  otherT <> Void ->
  of_integral ft (CVal otherT n)
  = Ok (FixedPoint ft
          (wrap (raw_type ft) (n * 2 ^ Z.of_N (fractional_bits ft)))).
Proof.
  intros Hwf Hother.
  assert (Hint : is_integral otherT = true)
    by (destruct otherT; [congruence | reflexivity ..]).
  pose proof (fractional_bits_lt_width ft Hwf) as HF.
  pose proof (bit_width_promote (raw_type ft)) as HP.
  unfold of_integral, cast_integral_from. rewrite Hwf. cbn [cty]. rewrite Hint.
  rewrite shl_ok by (cbn [static_cast cty]; lia).
  cbn [bind static_cast cty cnum].
  rewrite (wrap_promote _ (wrap _ n)) by apply in_range_wrap.
  rewrite wrap_wrap_promote, Z.shiftl_mul_pow2 by lia.
  rewrite wrap_mul_wrap_l. reflexivity.
Qed.

(** X3: [++] adds the representation of 1, [1 << F], in the raw type and
    [--] takes it away again, so a decrement undoes an increment; the
    prefix forms return the new value, the postfix forms the previous one. *)
Theorem increment_then_decrement (a : fixed_point) :
  well_formed (ftype a) = true ->
  has_raw_value a ->
  let F := Z.of_N (fractional_bits (ftype a)) in
  exists a1 : fixed_point,
    pre_increment a = Ok (a1, a1)
    /\ post_increment a = Ok (a1, a)
    /\ pre_decrement a1 = Ok (a, a)
    /\ post_decrement a1 = Ok (a, a1)
    /\ ftype a1 = ftype a
    /\ value a1 = wrap (raw_type (ftype a)) (value a + 2 ^ F)
    /\ (in_range (raw_type (ftype a)) (value a + 2 ^ F) ->
        value a1 = value a + 2 ^ F).
Proof.
  intros Hwf Ha F.
  pose proof (of_integral_value (ftype a) Int32 1 Hwf ltac:(discriminate)) as H1.
  rewrite Z.mul_1_l in H1. fold F in H1. fold (lit 1) in H1.
  set (one := FixedPoint (ftype a) (wrap (raw_type (ftype a)) (2 ^ F))) in *.
  assert (Hone : has_raw_value one) by apply in_range_wrap.
  assert (Hinc : operator_add_assign a one
                 = FixedPoint (ftype a) (wrap (raw_type (ftype a)) (value a + 2 ^ F))).
  { unfold operator_add_assign.
    rewrite (operator_add_value a one eq_refl Ha Hone). cbn [value one].
    rewrite wrap_add_wrap_r. reflexivity. }
  set (a1 := FixedPoint (ftype a) (wrap (raw_type (ftype a)) (value a + 2 ^ F))) in *.
  assert (Ha1 : has_raw_value a1) by apply in_range_wrap.
  assert (Hdec : operator_sub_assign a1 one = a).
  { rewrite (operator_sub_assign_value a1 one eq_refl Ha1 Hone).
    cbn [ftype value a1 one].
    rewrite wrap_sub_wrap_r, wrap_sub_wrap_l.
    replace (value a + 2 ^ F - 2 ^ F) with (value a) by lia.
    rewrite (wrap_in_range _ _ Ha). apply fixed_point_eta. }
  exists a1.
  unfold pre_increment, post_increment, pre_decrement, post_decrement.
  change (ftype a1) with (ftype a).
  rewrite H1. cbn [bind]. rewrite Hinc, Hdec.
  repeat split. intros Hin. apply wrap_in_range, Hin.
Qed.

Lemma increment_then_decrement_witness :
  exists a1 : fixed_point,
    pre_increment (FixedPoint (FixedType Int32 16 16 false) 98304) = Ok (a1, a1)
    /\ pre_decrement a1
       = Ok (FixedPoint (FixedType Int32 16 16 false) 98304,
             FixedPoint (FixedType Int32 16 16 false) 98304)
    /\ value a1 = 163840.
Proof.
  destruct (increment_then_decrement
              (FixedPoint (FixedType Int32 16 16 false) 98304)
              eq_refl ltac:(vm_compute; split; discriminate))
    as (a1 & Hpre & _ & Hdec & _ & _ & _ & Hv).
  exists a1. split; [exact Hpre | split; [exact Hdec | ]].
  apply Hv. vm_compute. split; discriminate.
Defined.

(** X4: construction from an integer is additive: the sum of the
    fixed-point values made from [n] and [m] is the value made from
    [n + m], and subtracting one summand gives back the other. *)
Theorem of_integral_additive (ft : fixed_type) (otherT : raw_ty) (n m : Z) :
  well_formed ft = true ->
  otherT <> Void ->
  exists x y s : fixed_point,
    of_integral ft (CVal otherT n) = Ok x
    /\ of_integral ft (CVal otherT m) = Ok y
    /\ of_integral ft (CVal otherT (n + m)) = Ok s
    /\ operator_add x y = s
    /\ operator_sub s y = x.
Proof.
  intros Hwf Hother.
  rewrite !(of_integral_value ft otherT _ Hwf Hother).
  set (p := 2 ^ Z.of_N (fractional_bits ft)).
  do 3 eexists. repeat split.
  - rewrite operator_add_value; try reflexivity; try apply in_range_wrap.
    cbn [ftype value]. rewrite wrap_add_wrap_l, wrap_add_wrap_r.
    do 2 f_equal. lia.
  - rewrite operator_sub_value; try reflexivity; try apply in_range_wrap.
    cbn [ftype value]. rewrite wrap_sub_wrap_l, wrap_sub_wrap_r.
    do 2 f_equal. lia.
Qed.

Lemma of_integral_additive_witness :
  exists x y s : fixed_point,
    of_integral (FixedType Int32 16 16 false) (CVal Int32 12) = Ok x
    /\ of_integral (FixedType Int32 16 16 false) (CVal Int32 18) = Ok y
    /\ of_integral (FixedType Int32 16 16 false) (CVal Int32 30) = Ok s
    /\ operator_add x y = s
    /\ operator_sub s y = x.
Proof.
  exact (of_integral_additive (FixedType Int32 16 16 false) Int32 12 18
           eq_refl ltac:(discriminate)).
Defined.

Lemma trunc_value (a : fixed_point) :
  well_formed (ftype a) = true ->
  (fractional_bits (ftype a) < digits (promote (raw_type (ftype a))))%N ->
  has_raw_value a ->
  trunc a
  = Ok (FixedPoint (ftype a)
          (Z.shiftl (Z.shiftr (value a) (Z.of_N (fractional_bits (ftype a))))
                    (Z.of_N (fractional_bits (ftype a))))).
Proof.
  intros Hwf Hc Ha. unfold has_raw_value in Ha.
  destruct (well_formed_spec _ Hwf) as (Hv & _).
  pose proof (fractional_bits_lt_width _ Hwf) as HF.
  set (F := Z.of_N (fractional_bits (ftype a))).
  assert (Hf : 0 <= F < Z.of_N (bit_width (raw_type (ftype a))))
    by (subst F; lia).
  unfold trunc. rewrite integral_mask_value by assumption.
  cbn [bind]. unfold FIXED_POINT_RAW, band, arith, static_cast, raw.
  cbn [cty cnum]. rewrite common_type_diag. fold F.
  rewrite (wrap_promote _ (value a)) by exact Ha.
  rewrite (wrap_promote _ (wrap _ _)) by apply in_range_wrap.
  rewrite wrap_wrap_promote, (land_integral_mask _ _ _ Hv Hf Ha).
  rewrite wrap_in_range by (apply in_range_clear_low_bits; assumption).
  reflexivity.
Qed.

Lemma to_integral_value (otherT : raw_ty) (a : fixed_point) :
  well_formed (ftype a) = true ->
  has_raw_value a ->
  otherT <> Void ->
  to_integral otherT a
  = Ok (CVal otherT
          (wrap otherT (Z.shiftr (value a) (Z.of_N (fractional_bits (ftype a)))))).
Proof.
  intros Hwf Ha Hother. unfold has_raw_value in Ha.
  assert (Hint : is_integral otherT = true)
    by (destruct otherT; [congruence | reflexivity ..]).
  pose proof (fractional_bits_lt_width _ Hwf) as HF.
  pose proof (bit_width_promote (raw_type (ftype a))) as HP.
  unfold to_integral, cast_integral_to. rewrite Hint.
  rewrite shr_ok by (cbn [raw cty]; lia).
  cbn [bind static_cast raw cty cnum].
  rewrite (wrap_promote _ (value a)) by exact Ha.
  rewrite wrap_promote by (apply in_range_shiftr; [lia | exact Ha]).
  reflexivity.
Qed.

(** X5: [trunc] rounds toward negative infinity to a multiple of [2^F]:
    the result is not above its argument and less than one unit below it,
    [trunc] leaves it unchanged, and the conversion to an integer gives
    the same integer, the floor of [raw / 2^F], for both.  This holds for
    the types whose mask constants are constant expressions, that is where
    [(raw_type(1) << F) - 1] does not overflow the promoted raw type; for
    the other types [trunc] is rejected. *)
Theorem trunc_rounds_down (otherT : raw_ty) (a : fixed_point) :
  well_formed (ftype a) = true ->
  (fractional_bits (ftype a) < digits (promote (raw_type (ftype a))))%N ->
  has_raw_value a ->
  otherT <> Void ->
  let p := 2 ^ Z.of_N (fractional_bits (ftype a)) in
  exists t : fixed_point,
    trunc a = Ok t
    /\ ftype t = ftype a
    /\ value t = p * (value a / p)
    /\ value t <= value a < value t + p
    /\ operator_le t a = true
    /\ trunc t = Ok t
    /\ to_integral otherT a = Ok (CVal otherT (wrap otherT (value a / p)))
    /\ to_integral otherT t = to_integral otherT a.
Proof.
  intros Hwf Hc Ha Hother p.
  destruct (well_formed_spec _ Hwf) as (Hv & _).
  pose proof (fractional_bits_lt_width _ Hwf) as HF.
  set (F := Z.of_N (fractional_bits (ftype a))) in *.
  assert (Hf : 0 <= F < Z.of_N (bit_width (raw_type (ftype a))))
    by (subst F; lia).
  assert (Hp : 0 < p) by (apply Z.pow_pos_nonneg; lia).
  pose proof (Z.mod_pos_bound (value a) p Hp) as Hm.
  pose proof (Z.div_mod (value a) p ltac:(lia)) as Hdm.
  set (t := FixedPoint (ftype a) (Z.shiftl (Z.shiftr (value a) F) F)).
  assert (Hvt : value t = p * (value a / p)).
  { cbn [t value]. rewrite Z.shiftr_div_pow2, Z.shiftl_mul_pow2 by lia.
    fold p. lia. }
  assert (Ht : has_raw_value t)
    by (apply in_range_clear_low_bits; assumption).
  assert (Hdiv : value t / p = value a / p).
  { rewrite Hvt, Z.mul_comm. apply Z.div_mul. lia. }
  exists t.
  split; [apply trunc_value; assumption | ].
  split; [reflexivity | ].
  split; [exact Hvt | ].
  split; [lia | ].
  split.
  { unfold operator_le, le. rewrite (cmp_raw _ t a eq_refl Ht Ha).
    apply Z.leb_le. lia. }
  split.
  { rewrite (trunc_value t Hwf Hc Ht). unfold t. cbn [ftype value]. fold F.
    rewrite (Z.shiftr_shiftl_l _ F F) by lia.
    rewrite Z.sub_diag, Z.shiftl_0_r. reflexivity. }
  split.
  { rewrite (to_integral_value otherT a Hwf Ha Hother). fold F.
    rewrite Z.shiftr_div_pow2 by lia. reflexivity. }
  rewrite (to_integral_value otherT a Hwf Ha Hother).
  rewrite (to_integral_value otherT t Hwf Ht Hother).
  change (ftype t) with (ftype a). fold F.
  rewrite !Z.shiftr_div_pow2 by lia. fold p. rewrite Hdiv. reflexivity.
Qed.

Lemma trunc_rounds_down_witness :
  exists t : fixed_point,
    trunc (FixedPoint (FixedType Int32 16 16 false) (-98304)) = Ok t
    /\ value t = -131072
    /\ to_integral Int32 (FixedPoint (FixedType Int32 16 16 false) (-98304))
       = Ok (CVal Int32 (-2))
    /\ to_integral Int32 t = Ok (CVal Int32 (-2)).
Proof.
  destruct (trunc_rounds_down Int32
              (FixedPoint (FixedType Int32 16 16 false) (-98304))
              eq_refl ltac:(vm_compute; reflexivity)
              ltac:(vm_compute; split; discriminate) ltac:(discriminate))
    as (t & Ht & _ & Hv & _ & _ & _ & Hi & Hti).
  exists t. split; [exact Ht | split; [exact Hv | split; [exact Hi | ]]].
  rewrite Hti. exact Hi.
Defined.

(** X6: a value constructed from an integer has no fractional bits:
    [trunc] returns it unchanged, for the types whose mask constants are
    constant expressions (for the others [trunc] is rejected). *)
Theorem trunc_of_integral (ft : fixed_type) (otherT : raw_ty) (n : Z) :
  well_formed ft = true ->
  (fractional_bits ft < digits (promote (raw_type ft)))%N ->
  otherT <> Void ->
  exists x : fixed_point,
    of_integral ft (CVal otherT n) = Ok x /\ trunc x = Ok x.
Proof.
  intros Hwf Hc Hother.
  rewrite (of_integral_value ft otherT n Hwf Hother).
  eexists. split; [reflexivity | ].
  rewrite trunc_value by (try exact Hwf; try exact Hc; apply in_range_wrap).
  cbn [ftype value]. do 2 f_equal.
  pose proof (fractional_bits_lt_width _ Hwf) as HF.
  set (F := Z.of_N (fractional_bits ft)) in *.
  destruct (wrap_multiple (raw_type ft) (n * 2 ^ F)) as (k & Hk). rewrite Hk.
  assert (Hm : modulus (raw_type ft)
               = 2 ^ (Z.of_N (bit_width (raw_type ft)) - F) * 2 ^ F).
  { unfold modulus. rewrite <- Z.pow_add_r by lia. f_equal. lia. }
  rewrite Hm.
  replace (n * 2 ^ F + k * (2 ^ (Z.of_N (bit_width (raw_type ft)) - F) * 2 ^ F))
    with ((n + k * 2 ^ (Z.of_N (bit_width (raw_type ft)) - F)) * 2 ^ F) by lia.
  rewrite <- Z.shiftl_mul_pow2 by lia.
  rewrite Z.shiftr_shiftl_l by lia.
  rewrite Z.sub_diag, Z.shiftl_0_r. reflexivity.
Qed.

Lemma trunc_of_integral_witness :
  exists x : fixed_point,
    of_integral (FixedType Int8 4 4 false) (CVal Int32 (-3)) = Ok x
    /\ trunc x = Ok x.
Proof.
  exact (trunc_of_integral (FixedType Int8 4 4 false) Int32 (-3)
           eq_refl ltac:(vm_compute; reflexivity) ltac:(discriminate)).
Defined.

Lemma FIXED_POINT_RAW_raw (a : fixed_point) :
  has_raw_value a -> FIXED_POINT_RAW (ftype a) (raw a) = a.
Proof.
  intros Ha. unfold FIXED_POINT_RAW, static_cast, raw. cbn [cnum].
  rewrite (wrap_in_range _ _ Ha). apply fixed_point_eta.
Qed.

(** X7: [std::min] and [std::max] (and [fmin], [fmax]) return one of
    their two arguments, the one with the smaller, respectively larger,
    raw value. *)
Theorem min_max_select (a b : fixed_point) :
  ftype b = ftype a ->
  has_raw_value a ->
  has_raw_value b ->
  value (std_min a b) = Z.min (value a) (value b)
  /\ value (std_max a b) = Z.max (value a) (value b)
  /\ (std_min a b = a \/ std_min a b = b)
  /\ (std_max a b = a \/ std_max a b = b)
  /\ fmin a b = std_min a b
  /\ fmax a b = std_max a b
  /\ operator_le (std_min a b) a = true
  /\ operator_le (std_min a b) b = true
  /\ operator_ge (std_max a b) a = true
  /\ operator_ge (std_max a b) b = true.
Proof.
  intros E Ha Hb.
  assert (Hmin : std_min a b = if value a <? value b then a else b).
  { unfold std_min, lt. rewrite (cmp_raw _ a b (eq_sym E) Ha Hb).
    destruct (value a <? value b).
    - apply FIXED_POINT_RAW_raw, Ha.
    - rewrite <- E. apply FIXED_POINT_RAW_raw, Hb. }
  assert (Hmax : std_max a b = if value a >? value b then a else b).
  { unfold std_max, gt. rewrite (cmp_raw _ a b (eq_sym E) Ha Hb).
    destruct (value a >? value b).
    - apply FIXED_POINT_RAW_raw, Ha.
    - rewrite <- E. apply FIXED_POINT_RAW_raw, Hb. }
  assert (Hle : forall x y : fixed_point,
             ftype x = ftype y -> has_raw_value x -> has_raw_value y ->
             value x <= value y ->
             operator_le x y = true /\ operator_ge y x = true).
  { intros x y Exy Hx Hy Hxy. unfold operator_le, operator_ge, le, ge.
    rewrite (cmp_raw _ x y Exy Hx Hy), (cmp_raw _ y x (eq_sym Exy) Hy Hx).
    rewrite Z.geb_leb. split; apply Z.leb_le; exact Hxy. }
  assert (Hfmin : fmin a b = std_min a b) by reflexivity.
  assert (Hfmax : fmax a b = std_max a b) by reflexivity.
  rewrite Hfmin, Hfmax, Hmin, Hmax, Z.gtb_ltb.
  destruct (Z.ltb_spec (value a) (value b)) as [Hlt | Hge];
    destruct (Z.ltb_spec (value b) (value a)) as [Hlt' | Hge'];
    try lia;
    (split; [lia | split; [lia | split; [tauto | split; [tauto | ]]]]);
    (split; [reflexivity | split; [reflexivity | ]]);
    repeat split;
    try (apply (Hle a a); [reflexivity | assumption | assumption | lia]);
    try (apply (Hle b b); [reflexivity | assumption | assumption | lia]);
    try (apply (Hle a b); [congruence | assumption | assumption | lia]);
    try (apply (Hle b a); [congruence | assumption | assumption | lia]).
Qed.

Lemma min_max_select_witness :
  value (std_min (FixedPoint (FixedType Int32 16 16 false) (-98304))
                 (FixedPoint (FixedType Int32 16 16 false) 65536)) = -98304
  /\ value (std_max (FixedPoint (FixedType Int32 16 16 false) (-98304))
                    (FixedPoint (FixedType Int32 16 16 false) 65536)) = 65536.
Proof.
  destruct (min_max_select
              (FixedPoint (FixedType Int32 16 16 false) (-98304))
              (FixedPoint (FixedType Int32 16 16 false) 65536)
              eq_refl
              ltac:(vm_compute; split; discriminate)
              ltac:(vm_compute; split; discriminate)) as (Hmin & Hmax & _).
  split; [exact Hmin | exact Hmax].
Defined.

Lemma numeric_max_in_range (t : raw_ty) : in_range t (numeric_max t).
Proof. destruct t; unfold_range; cbn; lia. Qed.

Lemma in_range_one (t : raw_ty) : t <> Void -> in_range t 1.
Proof. intros Hv. destruct t; try congruence; unfold_range; cbn; lia. Qed.

(** X8: every value lies between [numeric_limits::min ()] (which is also
    [lowest ()]) and [max ()]; [epsilon ()] has raw value 1 and is the
    distance to the next representable value: adding it to [a] gives a
    value above [a] and not above any [b] that is above [a]. *)
Theorem numeric_limits_bound_values (a : fixed_point) :
  well_formed (ftype a) = true ->
  has_raw_value a ->
  exists lo hi eps : fixed_point,
    numeric_limits_min (ftype a) = Ok lo
    /\ numeric_limits_lowest (ftype a) = Ok lo
    /\ numeric_limits_max (ftype a) = Ok hi
    /\ numeric_limits_epsilon (ftype a) = Ok eps
    /\ operator_le lo a = true
    /\ operator_le a hi = true
    /\ value eps = 1
    /\ forall b : fixed_point,
         ftype b = ftype a -> has_raw_value b ->
         operator_lt a b = true ->
         operator_lt a (operator_add a eps) = true
         /\ operator_le (operator_add a eps) b = true.
Proof.
  intros Hwf Ha.
  destruct (well_formed_spec _ Hwf) as (Hv & _).
  exists (FixedPoint (ftype a) (numeric_min (raw_type (ftype a)))).
  exists (FixedPoint (ftype a) (numeric_max (raw_type (ftype a)))).
  exists (FixedPoint (ftype a) 1).
  assert (Hlo : has_raw_value (FixedPoint (ftype a) (numeric_min (raw_type (ftype a)))))
    by apply numeric_min_in_range.
  assert (Hhi : has_raw_value (FixedPoint (ftype a) (numeric_max (raw_type (ftype a)))))
    by apply numeric_max_in_range.
  assert (Heps : has_raw_value (FixedPoint (ftype a) 1))
    by (apply in_range_one, Hv).
  assert (Hmin : numeric_limits_min (ftype a)
                 = Ok (FixedPoint (ftype a) (numeric_min (raw_type (ftype a))))).
  { unfold numeric_limits_min. rewrite construct_ok by exact Hwf. cbn [cnum].
    rewrite wrap_in_range by apply numeric_min_in_range. reflexivity. }
  split; [exact Hmin | ].
  split; [exact Hmin | ].
  split.
  { unfold numeric_limits_max. rewrite construct_ok by exact Hwf. cbn [cnum].
    rewrite wrap_in_range by apply numeric_max_in_range. reflexivity. }
  split.
  { unfold numeric_limits_epsilon. rewrite construct_ok by exact Hwf.
    cbn [cnum lit]. rewrite (wrap_one _ Hv). reflexivity. }
  pose proof Ha as Hr. unfold has_raw_value, in_range in Hr.
  split.
  { unfold operator_le, le.
    rewrite (cmp_raw _ (FixedPoint (ftype a) (numeric_min (raw_type (ftype a)))) a
               eq_refl Hlo Ha).
    apply Z.leb_le. cbn [value]. lia. }
  split.
  { unfold operator_le, le.
    rewrite (cmp_raw _ a (FixedPoint (ftype a) (numeric_max (raw_type (ftype a))))
               eq_refl Ha Hhi).
    apply Z.leb_le. cbn [value]. lia. }
  split; [reflexivity | ].
  intros b E Hb Hlt.
  rewrite (operator_lt_raw a b (eq_sym E) Ha Hb) in Hlt. apply Z.ltb_lt in Hlt.
  rewrite (operator_add_value a (FixedPoint (ftype a) 1) eq_refl Ha Heps).
  cbn [value].
  pose proof Hb as Hrb. unfold has_raw_value, in_range in Hrb. rewrite E in Hrb.
  assert (Hin : in_range (raw_type (ftype a)) (value a + 1))
    by (unfold in_range; lia).
  rewrite (wrap_in_range _ _ Hin).
  set (a' := FixedPoint (ftype a) (value a + 1)).
  assert (Ha' : has_raw_value a') by exact Hin.
  split.
  - rewrite (operator_lt_raw a a' eq_refl Ha Ha').
    apply Z.ltb_lt. cbn [a' value]. lia.
  - unfold operator_le, le.
    rewrite (cmp_raw _ a' b (eq_sym E) Ha' Hb).
    apply Z.leb_le. cbn [a' value]. lia.
Qed.

Lemma numeric_limits_bound_values_witness :
  exists lo hi eps : fixed_point,
    numeric_limits_min (FixedType Int16 8 8 false) = Ok lo
    /\ numeric_limits_max (FixedType Int16 8 8 false) = Ok hi
    /\ numeric_limits_epsilon (FixedType Int16 8 8 false) = Ok eps
    /\ value lo = -32768 /\ value hi = 32767 /\ value eps = 1.
Proof.
  destruct (numeric_limits_bound_values
              (FixedPoint (FixedType Int16 8 8 false) 256)
              eq_refl ltac:(vm_compute; split; discriminate))
    as (lo & hi & eps & Hlo & _ & Hhi & Heps & _ & _ & Hv & _).
  exists lo, hi, eps.
  split; [exact Hlo | split; [exact Hhi | split; [exact Heps | ]]].
  cbv in Hlo, Hhi.
  injection Hlo as <-. injection Hhi as <-.
  split; [reflexivity | split; [reflexivity | exact Hv]].
Defined.

Lemma in_range_opp (t : raw_ty) (z : Z) :
  in_range t z ->
  (is_signed t = true -> numeric_min t < z) ->
  (is_signed t = true -> in_range t (- z)) /\ (is_signed t = false -> 0 <= z).
Proof.
  intros Hin Hmin. destruct t; unfold_range; cbn in *;
    split; intros Hs; try discriminate; try lia;
    specialize (Hmin eq_refl); lia.
Qed.

Lemma abs_value (a : fixed_point) :
  well_formed (ftype a) = true ->
  has_raw_value a ->
  (is_signed (raw_type (ftype a)) = true ->
   numeric_min (raw_type (ftype a)) < value a) ->
  abs a = Ok (FixedPoint (ftype a) (Z.abs (value a))).
Proof.
  intros Hwf Ha Hmin. rewrite (abs_unfold a Hwf Ha).
  destruct (in_range_opp _ _ Ha Hmin) as (Hs & Hu).
  destruct (Z.ltb_spec (value a) 0) as [Hneg | Hpos].
  - rewrite (operator_neg_value a Ha). do 2 f_equal.
    destruct (is_signed (raw_type (ftype a))) eqn:Hsig.
    + rewrite wrap_in_range by (apply Hs; reflexivity). lia.
    + specialize (Hu eq_refl). lia.
  - rewrite Z.abs_eq by lia. rewrite fixed_point_eta. reflexivity.
Qed.

Lemma in_range_abs (t : raw_ty) (z : Z) :
  in_range t z ->
  (is_signed t = true -> numeric_min t < z) ->
  in_range t (Z.abs z) /\ in_range t (- Z.abs z)
  \/ is_signed t = false /\ in_range t (Z.abs z).
Proof.
  intros Hin Hmin. destruct t; unfold_range; cbn in *;
    try (left; specialize (Hmin eq_refl); lia); right; split; try reflexivity; lia.
Qed.

(** X9: away from the most negative value, [std::abs] returns the
    magnitude: its raw value is the absolute value of the argument's raw
    value, applying [abs] again changes nothing, and for a signed raw type
    a value and its negation have the same [abs]. *)
Theorem abs_is_magnitude (a : fixed_point) :
  well_formed (ftype a) = true ->
  has_raw_value a ->
  (is_signed (raw_type (ftype a)) = true ->
   numeric_min (raw_type (ftype a)) < value a) ->
  exists r : fixed_point,
    abs a = Ok r
    /\ ftype r = ftype a
    /\ value r = Z.abs (value a)
    /\ abs r = Ok r
    /\ (is_signed (raw_type (ftype a)) = true ->
        abs (operator_neg a) = Ok r).
Proof.
  intros Hwf Ha Hmin.
  exists (FixedPoint (ftype a) (Z.abs (value a))).
  split; [apply abs_value; assumption | ].
  split; [reflexivity | split; [reflexivity | ]].
  destruct (in_range_opp _ _ Ha Hmin) as (Hs & Hu).
  pose proof (in_range_abs _ _ Ha Hmin) as Habs.
  assert (Hr : in_range (raw_type (ftype a)) (Z.abs (value a)))
    by (destruct Habs as [[H _] | [_ H]]; exact H).
  split.
  - rewrite abs_value; cbn [ftype value]; try assumption.
    + rewrite Z.abs_idemp. reflexivity.
    + intros Hsig. specialize (Hmin Hsig). lia.
  - intros Hsig. specialize (Hs Hsig).
    rewrite (operator_neg_value a Ha), (wrap_in_range _ _ Hs).
    rewrite abs_value; cbn [ftype value]; try assumption.
    + rewrite Z.abs_opp. reflexivity.
    + intros _. specialize (Hmin Hsig).
      unfold has_raw_value, in_range, numeric_min, numeric_max in *.
      rewrite Hsig in *. lia.
Qed.

Lemma abs_is_magnitude_witness :
  exists r : fixed_point,
    abs (FixedPoint (FixedType Int32 16 16 false) (-98304)) = Ok r
    /\ value r = 98304
    /\ abs r = Ok r.
Proof.
  destruct (abs_is_magnitude (FixedPoint (FixedType Int32 16 16 false) (-98304))
              eq_refl ltac:(vm_compute; split; discriminate)
              ltac:(intros _; reflexivity))
    as (r & Hr & _ & Hv & Hi & _).
  exists r. split; [exact Hr | split; [exact Hv | exact Hi]].
Defined.

(** Comparing a raw value with the literal [0] converts both to a common
    type that represents the raw value. *)
Lemma cmp_lit_zero (f : Z -> Z -> bool) (x : fixed_point) :
  has_raw_value x ->
  cmp f (raw x) (lit 0) = f (value x) 0.
Proof.
  unfold has_raw_value, cmp, raw, lit. cbn [cty cnum]. intros Hx.
  rewrite wrap_zero. f_equal. apply wrap_in_range.
  destruct (raw_type (ftype x)); unfold_range; cbn in *; lia.
Qed.

Lemma signbit_value (x : fixed_point) :
  has_raw_value x -> signbit x = if value x <? 0 then 1 else 0.
Proof.
  intros Hx. unfold signbit, lt. rewrite (cmp_lit_zero _ x Hx). reflexivity.
Qed.

(** X10: [std::copysign (x, y)] has the magnitude of [x] and the sign
    of [y]: its raw value is [|x.raw|], negated when [y.raw] is negative, so
    for [x] other than zero [signbit] of the result is [signbit (y)]; with
    an unsigned raw type the result is [x]. *)
Theorem copysign_takes_sign (x y : fixed_point) :
  well_formed (ftype x) = true ->
  ftype y = ftype x ->
  has_raw_value x ->
  has_raw_value y ->
  (is_signed (raw_type (ftype x)) = true ->
   numeric_min (raw_type (ftype x)) < value x) ->
  exists r : fixed_point,
    copysign x y = Ok r
    /\ ftype r = ftype x
    /\ value r = (if value y <? 0 then - Z.abs (value x) else Z.abs (value x))
    /\ (value x <> 0 -> signbit r = signbit y)
    /\ (is_signed (raw_type (ftype x)) = false -> r = x).
Proof.
  intros Hwf E Hx Hy Hmin.
  pose proof (in_range_abs _ _ Hx Hmin) as Habs.
  assert (Hf : fabs x = Ok (FixedPoint (ftype x) (Z.abs (value x))))
    by (unfold fabs; fold (abs x); apply abs_value; assumption).
  set (f := FixedPoint (ftype x) (Z.abs (value x))) in *.
  assert (Hrf : has_raw_value f)
    by (destruct Habs as [[H _] | [_ H]]; exact H).
  assert (Hyu : is_signed (raw_type (ftype x)) = false -> 0 <= value y).
  { intros Hu. unfold has_raw_value, in_range, numeric_min in Hy.
    rewrite E, Hu in Hy. lia. }
  assert (Hxu : is_signed (raw_type (ftype x)) = false -> 0 <= value x).
  { intros Hu. unfold has_raw_value, in_range, numeric_min in Hx.
    rewrite Hu in Hx. lia. }
  assert (Hr : copysign x y
               = Ok (FixedPoint (ftype x)
                       (if value y <? 0 then - Z.abs (value x) else Z.abs (value x)))).
  { unfold copysign. rewrite Hf. cbn [bind]. rewrite (signbit_value y Hy).
    destruct (Z.ltb_spec (value y) 0) as [Hneg | Hpos]; cbn [Z.eqb negb].
    - rewrite (operator_neg_value f Hrf). cbn [f ftype value]. do 2 f_equal.
      apply wrap_in_range.
      destruct Habs as [[_ H] | [Hu _]]; [exact H | ].
      specialize (Hyu Hu). lia.
    - reflexivity. }
  eexists. split; [exact Hr | ].
  cbn [ftype value]. split; [reflexivity | split; [reflexivity | ]].
  split.
  - intros Hnz. rewrite (signbit_value y Hy), signbit_value.
    + cbn [value].
      destruct (Z.ltb_spec (value y) 0) as [Hneg | Hpos];
        [destruct (Z.ltb_spec (- Z.abs (value x)) 0)
        | destruct (Z.ltb_spec (Z.abs (value x)) 0)]; try reflexivity; lia.
    + unfold has_raw_value. cbn [ftype value].
      destruct (Z.ltb_spec (value y) 0) as [Hneg | Hpos].
      * destruct Habs as [[_ H] | [Hu _]]; [exact H | ].
        specialize (Hyu Hu). lia.
      * exact Hrf.
  - intros Hu. specialize (Hyu Hu). specialize (Hxu Hu).
    destruct (Z.ltb_spec (value y) 0) as [Hneg | Hpos]; [lia | ].
    rewrite Z.abs_eq by exact Hxu. apply fixed_point_eta.
Qed.

Lemma copysign_takes_sign_witness :
  exists r : fixed_point,
    copysign (FixedPoint (FixedType Int32 16 16 false) 98304)
             (FixedPoint (FixedType Int32 16 16 false) (-1)) = Ok r
    /\ value r = -98304
    /\ signbit r = 1.
Proof.
  destruct (copysign_takes_sign
              (FixedPoint (FixedType Int32 16 16 false) 98304)
              (FixedPoint (FixedType Int32 16 16 false) (-1))
              eq_refl eq_refl
              ltac:(vm_compute; split; discriminate)
              ltac:(vm_compute; split; discriminate)
              ltac:(intros _; reflexivity))
    as (r & Hr & _ & Hv & Hs & _).
  exists r. split; [exact Hr | split; [exact Hv | ]].
  rewrite Hs by discriminate. reflexivity.
Defined.

(** X11: the classification functions follow the raw value: zero is
    [FP_ZERO] and everything else [FP_NORMAL]; [isnormal], the conversion
    to [bool] and [operator !] agree on which values are zero; [signbit]
    is 1 exactly for a negative raw value; every value is finite and none
    is infinite or NaN. *)
Theorem classification_follows_raw (x : fixed_point) :
  has_raw_value x ->
  (fpclassify x = FP_ZERO <-> value x = 0)
  /\ (fpclassify x = FP_NORMAL <-> value x <> 0)
  /\ isnormal x = (if to_bool x then 1 else 0)
  /\ operator_not x = negb (to_bool x)
  /\ (to_bool x = true <-> value x <> 0)
  /\ (signbit x = 1 <-> value x < 0)
  /\ (is_signed (raw_type (ftype x)) = false -> signbit x = 0)
  /\ isfinite x = 1 /\ isinf x = 0 /\ isnan x = 0.
Proof.
  intros Hx.
  unfold fpclassify, isnormal, to_bool, operator_not, eq, ne.
  rewrite (signbit_value x Hx), !(cmp_lit_zero _ x Hx).
  destruct (Z.eqb_spec (value x) 0) as [H0 | H0]; cbn [negb];
    destruct (Z.ltb_spec (value x) 0) as [Hneg | Hpos];
    repeat split; intros; try discriminate; try congruence; try lia;
    try reflexivity.
  all: unfold has_raw_value, in_range, numeric_min in Hx;
    match goal with H : is_signed _ = false |- _ => rewrite H in Hx end; lia.
Qed.

Lemma classification_follows_raw_witness :
  fpclassify (FixedPoint (FixedType UInt8 4 4 false) 0) = FP_ZERO
  /\ signbit (FixedPoint (FixedType UInt8 4 4 false) 0) = 0.
Proof.
  destruct (classification_follows_raw (FixedPoint (FixedType UInt8 4 4 false) 0)
              ltac:(vm_compute; split; discriminate))
    as (Hz & _ & _ & _ & _ & _ & Hs & _).
  split; [apply Hz; reflexivity | apply Hs; reflexivity].
Defined.

Lemma mul_fixed_fixed_value (a b : fixed_point) :
  well_formed (ftype a) = true ->
  fixed_point_widened_raw_type (raw_type (ftype a)) <> Void ->
  ftype b = ftype a ->
  has_raw_value a ->
  has_raw_value b ->
  mul_fixed_fixed a b
  = Ok (FixedPoint (widened_fixed_type (ftype a)) (value a * value b)).
Proof.
  intros Hwf Hw E Ha Hb. unfold has_raw_value in *. rewrite E in Hb.
  destruct (widened_product_in_range _ _ _ Hw Ha Hb) as (Hxa & Hxb & Hxy).
  unfold mul_fixed_fixed, widened_raw_type.
  destruct (is_void (fixed_point_widened_raw_type (raw_type (ftype a)))) eqn:Hvoid.
  { destruct (fixed_point_widened_raw_type (raw_type (ftype a)));
      try discriminate; congruence. }
  rewrite construct_ok by (apply well_formed_widened; assumption).
  unfold mul, arith, static_cast, raw.
  cbn [cty cnum raw_type widened_fixed_type]. unfold widened_raw_type.
  set (W := fixed_point_widened_raw_type (raw_type (ftype a))) in *.
  rewrite common_type_diag.
  rewrite (wrap_in_range W (value a)), (wrap_in_range W (value b)) by assumption.
  rewrite (wrap_promote W (value a)), (wrap_promote W (value b)) by assumption.
  rewrite wrap_promote by assumption.
  rewrite wrap_in_range by assumption. reflexivity.
Qed.

Lemma narrowed_raw_of_widened (t : raw_ty) :
  fixed_point_widened_raw_type t <> Void ->
  fixed_point_narrowed_raw_type (fixed_point_widened_raw_type t) = t.
Proof. destruct t; cbn; congruence. Qed.

Lemma narrowed_of_widened (ft : fixed_type) :
  fixed_point_widened_raw_type (raw_type ft) <> Void ->
  is_widened ft = false ->
  narrowed_fixed_type (widened_fixed_type ft) = ft.
Proof.
  intros Hw Hnw. destruct ft as [t i f w]. cbn in *. subst w.
  unfold narrowed_fixed_type, widened_fixed_type, narrowed_raw_type, widened_raw_type.
  cbn [raw_type integral_bits fractional_bits].
  rewrite narrowed_raw_of_widened by exact Hw.
  rewrite !N.div_mul by lia. reflexivity.
Qed.

Lemma widened_not_same (ft : fixed_type) :
  is_widened ft = false ->
  fixed_type_eqb (widened_fixed_type ft) ft = false
  /\ fixed_type_eqb ft (widened_fixed_type ft) = false.
Proof.
  intros Hnw. split.
  - destruct (fixed_type_eqb (widened_fixed_type ft) ft) eqn:E; [ | reflexivity].
    apply fixed_type_eqb_eq in E. rewrite <- E in Hnw. discriminate.
  - destruct (fixed_type_eqb ft (widened_fixed_type ft)) eqn:E; [ | reflexivity].
    apply fixed_type_eqb_eq in E. rewrite E in Hnw. discriminate.
Qed.

(** Conversion of a value of the widened companion type back to the type. *)
Lemma narrow_from_widened_value (ft : fixed_type) (w : fixed_point) :
  well_formed ft = true ->
  fixed_point_widened_raw_type (raw_type ft) <> Void ->
  ftype w = widened_fixed_type ft ->
  has_raw_value w ->
  convert_to ft w
  = Ok (FixedPoint ft
          (wrap (raw_type ft) (Z.shiftr (value w) (Z.of_N (fractional_bits ft))))).
Proof.
  intros Hwf Hw E Hrw.
  assert (Hwfw : well_formed (ftype w) = true)
    by (rewrite E; apply well_formed_widened; assumption).
  destruct (convert_to_value ft w Hwfw Hwf Hrw) as (r & Hr & Ht & _ & Hfewer & Hequal).
  rewrite Hr. f_equal. destruct r as [rt rv]. cbn [ftype value] in *. subst rt.
  f_equal. rewrite E in Hfewer, Hequal.
  cbn [widened_fixed_type fractional_bits] in Hfewer, Hequal.
  destruct (N.eq_dec (fractional_bits ft) 0) as [H0 | Hpos].
  - rewrite Hequal by (rewrite H0; reflexivity).
    rewrite H0. rewrite Z.shiftr_0_r. reflexivity.
  - rewrite Hfewer by lia. do 2 f_equal. lia.
Qed.

(** Conversion of a value to the widened companion type. *)
Lemma widen_value (a : fixed_point) :
  well_formed (ftype a) = true ->
  fixed_point_widened_raw_type (raw_type (ftype a)) <> Void ->
  has_raw_value a ->
  convert_to (widened_fixed_type (ftype a)) a
  = Ok (FixedPoint (widened_fixed_type (ftype a))
          (value a * 2 ^ Z.of_N (fractional_bits (ftype a)))).
Proof.
  intros Hwf Hw Ha.
  assert (Hwfw : well_formed (widened_fixed_type (ftype a)) = true)
    by (apply well_formed_widened; assumption).
  destruct (convert_to_value _ a Hwf Hwfw Ha) as (r & Hr & Ht & Hmore & _ & Hequal).
  rewrite Hr. f_equal. destruct r as [rt rv]. cbn [ftype value] in *. subst rt.
  f_equal. cbn [widened_fixed_type fractional_bits raw_type] in Hmore, Hequal.
  unfold widened_raw_type in *.
  pose proof (prescale_in_range _ (value a) _ Hw Ha (pow2_fractional_bound _ Hwf))
    as Hscaled.
  assert (Hxa : in_range (fixed_point_widened_raw_type (raw_type (ftype a))) (value a)).
  { pose proof (prescale_in_range _ (value a) 1 Hw Ha) as H1.
    rewrite Z.mul_1_r in H1. apply H1.
    pose proof (pow2_fractional_bound _ Hwf). lia. }
  destruct (N.eq_dec (fractional_bits (ftype a)) 0) as [H0 | Hpos].
  - rewrite Hequal by (rewrite H0; reflexivity).
    rewrite H0. cbn. rewrite Z.mul_1_r. apply wrap_in_range, Hxa.
  - rewrite Hmore by lia.
    rewrite (wrap_in_range _ _ Hxa), Z.shiftl_mul_pow2 by lia.
    replace (Z.of_N (fractional_bits (ftype a) * 2 - fractional_bits (ftype a)))
      with (Z.of_N (fractional_bits (ftype a))) by lia.
    apply wrap_in_range, Hscaled.
Qed.

(** X12: the implicit conversion to the widened companion type scales
    the raw value by [2^F] without loss, and converting the result back
    with the implicit conversion to the narrowed type returns the original
    value. *)
Theorem widen_then_narrow (a : fixed_point) :
  well_formed (ftype a) = true ->
  is_widened (ftype a) = false ->
  fixed_point_widened_raw_type (raw_type (ftype a)) <> Void ->
  has_raw_value a ->
  exists w : fixed_point,
    operator_widened_fixed_type a = Ok w
    /\ ftype w = widened_fixed_type (ftype a)
    /\ value w = value a * 2 ^ Z.of_N (fractional_bits (ftype a))
    /\ has_raw_value w
    /\ operator_narrowed_fixed_type w = Ok a.
Proof.
  intros Hwf Hnw Hw Ha.
  pose proof (prescale_in_range _ (value a) _ Hw Ha (pow2_fractional_bound _ Hwf))
    as Hscaled.
  eexists. split; [apply widen_value; assumption | ].
  cbn [ftype value]. split; [reflexivity | split; [reflexivity | ]].
  split; [exact Hscaled | ].
  unfold operator_narrowed_fixed_type. cbn [ftype].
  rewrite (narrowed_of_widened _ Hw Hnw).
  rewrite narrow_from_widened_value; try assumption; try reflexivity.
  cbn [value]. rewrite <- Z.shiftl_mul_pow2 by lia.
  rewrite Z.shiftr_shiftl_l by lia. rewrite Z.sub_diag, Z.shiftl_0_r.
  rewrite (wrap_in_range _ _ Ha), fixed_point_eta. reflexivity.
Qed.

Lemma widen_then_narrow_witness :
  exists w : fixed_point,
    operator_widened_fixed_type (FixedPoint (FixedType Int32 16 16 false) (-98304)) = Ok w
    /\ ftype w = FixedType Int64 32 32 true
    /\ value w = -6442450944
    /\ operator_narrowed_fixed_type w
       = Ok (FixedPoint (FixedType Int32 16 16 false) (-98304)).
Proof.
  destruct (widen_then_narrow (FixedPoint (FixedType Int32 16 16 false) (-98304))
              eq_refl eq_refl ltac:(discriminate)
              ltac:(vm_compute; split; discriminate))
    as (w & Hw & Ht & Hv & _ & Hn).
  exists w. split; [exact Hw | split; [exact Ht | split; [exact Hv | exact Hn]]].
Defined.

(** Shifting right by [f] and storing into [t] only looks at the bits
    [f .. f + N - 1]; an earlier reduction to a type that holds all of them
    does not matter. *)
Lemma wrap_shiftr_wrap (t u : raw_ty) (z f : Z) :
  0 <= f ->
  Z.of_N (bit_width t) + f <= Z.of_N (bit_width u) ->
  wrap t (Z.shiftr (wrap u z) f) = wrap t (Z.shiftr z f).
Proof.
  intros Hf Hw. destruct (wrap_multiple u z) as (k & Hk). rewrite Hk.
  rewrite !Z.shiftr_div_pow2 by exact Hf.
  assert (Hp : 0 < 2 ^ f) by (apply Z.pow_pos_nonneg; lia).
  assert (Hm : modulus u
               = (2 ^ (Z.of_N (bit_width u) - f - Z.of_N (bit_width t)) * modulus t)
                 * 2 ^ f).
  { unfold modulus. rewrite <- !Z.pow_add_r by lia. f_equal. lia. }
  rewrite Hm, Z.mul_assoc, Z.div_add by lia.
  rewrite Z.mul_assoc. apply wrap_add_multiple.
Qed.

Lemma widened_width (t : raw_ty) :
  fixed_point_widened_raw_type t <> Void ->
  bit_width (fixed_point_widened_raw_type t) = (2 * bit_width t)%N.
Proof. destruct t; cbn; congruence. Qed.

Lemma narrow_wrapped_sum (ft : fixed_type) (s : Z) :
  well_formed ft = true ->
  fixed_point_widened_raw_type (raw_type ft) <> Void ->
  wrap (raw_type ft)
    (Z.shiftr (wrap (fixed_point_widened_raw_type (raw_type ft)) s)
       (Z.of_N (fractional_bits ft)))
  = wrap (raw_type ft) (s / 2 ^ Z.of_N (fractional_bits ft)).
Proof.
  intros Hwf Hw. pose proof (fractional_bits_lt_width _ Hwf) as HF.
  rewrite wrap_shiftr_wrap by (rewrite ?widened_width by exact Hw; lia).
  rewrite Z.shiftr_div_pow2 by lia. reflexivity.
Qed.

Lemma operator_mul_assign_value (a b : fixed_point) :
  well_formed (ftype a) = true ->
  is_widened (ftype a) = false ->
  fixed_point_widened_raw_type (raw_type (ftype a)) <> Void ->
  ftype b = ftype a ->
  has_raw_value a ->
  has_raw_value b ->
  operator_mul_assign a b
  = Ok (FixedPoint (ftype a)
          (wrap (raw_type (ftype a))
             (value a * value b / 2 ^ Z.of_N (fractional_bits (ftype a))))).
Proof.
  intros Hwf Hnw Hw E Ha Hb.
  unfold operator_mul_assign.
  rewrite (mul_fixed_fixed_value a b Hwf Hw E Ha Hb). cbn [bind].
  unfold fixed_point_cast. cbn [ftype].
  rewrite (proj1 (widened_not_same _ Hnw)).
  rewrite narrow_from_widened_value; try assumption; try reflexivity.
  - cbn [value]. rewrite Z.shiftr_div_pow2 by lia. reflexivity.
  - unfold has_raw_value in *. cbn [ftype value widened_fixed_type raw_type].
    rewrite E in Hb. apply (widened_product_in_range _ _ _ Hw Ha Hb).
Qed.

(** X13: [a *= b] on a non-widened type stores the exact product of the
    raw values divided by [2^F], rounded toward negative infinity, into the
    raw type; multiplying by the value constructed from the integer 1
    leaves [a] unchanged when 1 fits the integral bits. *)
Theorem mul_assign_rounds_down (a b : fixed_point) :
  well_formed (ftype a) = true ->
  is_widened (ftype a) = false ->
  fixed_point_widened_raw_type (raw_type (ftype a)) <> Void ->
  ftype b = ftype a ->
  has_raw_value a ->
  has_raw_value b ->
  let p := 2 ^ Z.of_N (fractional_bits (ftype a)) in
  (exists r : fixed_point,
     operator_mul_assign a b = Ok r
     /\ ftype r = ftype a
     /\ value r = wrap (raw_type (ftype a)) (value a * value b / p)
     /\ (in_range (raw_type (ftype a)) (value a * value b / p) ->
         value r * p <= value a * value b < (value r + 1) * p))
  /\ (fits_in_integral_bits (ftype a) 1 ->
      exists one : fixed_point,
        of_integral (ftype a) (lit 1) = Ok one
        /\ value one = p
        /\ operator_mul_assign a one = Ok a).
Proof.
  intros Hwf Hnw Hw E Ha Hb p.
  assert (Hp : 0 < p) by (apply Z.pow_pos_nonneg; lia).
  split.
  - eexists. split; [apply operator_mul_assign_value; assumption | ].
    cbn [ftype value]. fold p.
    split; [reflexivity | split; [reflexivity | ]].
    intros Hin. rewrite (wrap_in_range _ _ Hin).
    pose proof (Z.mod_pos_bound (value a * value b) p Hp).
    pose proof (Z.div_mod (value a * value b) p ltac:(lia)). lia.
  - intros Hfit.
    destruct (scaled_integer_in_range _ 1 Hwf Hfit) as (_ & Hone).
    rewrite Z.mul_1_l in Hone. fold p in Hone.
    exists (FixedPoint (ftype a) p).
    assert (Hof : of_integral (ftype a) (lit 1) = Ok (FixedPoint (ftype a) p)).
    { unfold lit. rewrite of_integral_value by (try exact Hwf; discriminate).
      rewrite Z.mul_1_l. fold p. rewrite (wrap_in_range _ _ Hone). reflexivity. }
    split; [exact Hof | split; [reflexivity | ]].
    rewrite operator_mul_assign_value; try assumption; try reflexivity.
    cbn [value]. fold p. rewrite Z.div_mul by lia.
    rewrite (wrap_in_range _ _ Ha), fixed_point_eta. reflexivity.
Qed.

Lemma mul_assign_rounds_down_witness :
  (exists r : fixed_point,
     operator_mul_assign (FixedPoint (FixedType Int32 16 16 false) 98304)
                         (FixedPoint (FixedType Int32 16 16 false) (-1)) = Ok r
     /\ value r = -2)
  /\ (exists one : fixed_point,
        of_integral (FixedType Int32 16 16 false) (lit 1) = Ok one
        /\ operator_mul_assign (FixedPoint (FixedType Int32 16 16 false) 98304) one
           = Ok (FixedPoint (FixedType Int32 16 16 false) 98304)).
Proof.
  destruct (mul_assign_rounds_down
              (FixedPoint (FixedType Int32 16 16 false) 98304)
              (FixedPoint (FixedType Int32 16 16 false) (-1))
              eq_refl eq_refl ltac:(discriminate) eq_refl
              ltac:(vm_compute; split; discriminate)
              ltac:(vm_compute; split; discriminate))
    as ((r & Hr & _ & Hv & _) & Hone).
  split.
  - exists r. split; [exact Hr | exact Hv].
  - destruct Hone as (one & Hof & _ & Hmul).
    + vm_compute. split; [discriminate | reflexivity].
    + exists one. split; [exact Hof | exact Hmul].
Defined.

Lemma fma_value (x y z : fixed_point) :
  well_formed (ftype x) = true ->
  is_widened (ftype x) = false ->
  fixed_point_widened_raw_type (raw_type (ftype x)) <> Void ->
  ftype y = ftype x ->
  ftype z = ftype x ->
  has_raw_value x ->
  has_raw_value y ->
  has_raw_value z ->
  fma x y z
  = Ok (FixedPoint (ftype x)
          (wrap (raw_type (ftype x))
             (value x * value y / 2 ^ Z.of_N (fractional_bits (ftype x))
              + value z))).
Proof.
  intros Hwf Hnw Hw Ey Ez Hx Hy Hz.
  set (F := Z.of_N (fractional_bits (ftype x))).
  assert (Hp : 0 < 2 ^ F) by (apply Z.pow_pos_nonneg; subst F; lia).
  assert (Hwfz : well_formed (ftype z) = true) by (rewrite Ez; exact Hwf).
  assert (Hwz : fixed_point_widened_raw_type (raw_type (ftype z)) <> Void)
    by (rewrite Ez; exact Hw).
  unfold fma. rewrite Hnw.
  rewrite (mul_fixed_fixed_value x y Hwf Hw Ey Hx Hy). cbn [bind].
  unfold add_widened_fixed, fixed_point_cast. cbn [ftype].
  rewrite Ez at 1. rewrite (proj2 (widened_not_same _ Hnw)).
  rewrite <- Ez at 1. rewrite (widen_value z Hwfz Hwz Hz). cbn [bind].
  rewrite operator_add_value.
  - cbn [ftype value]. unfold operator_narrowed_fixed_type. cbn [ftype].
    rewrite (narrowed_of_widened _ Hw Hnw).
    rewrite narrow_from_widened_value;
      try assumption; try reflexivity; try apply in_range_wrap.
    cbn [value widened_fixed_type raw_type]. unfold widened_raw_type.
    rewrite narrow_wrapped_sum by assumption.
    rewrite Ez. fold F. rewrite Z.div_add by lia. reflexivity.
  - cbn [ftype]. rewrite Ez. reflexivity.
  - unfold has_raw_value in *. cbn [ftype value widened_fixed_type raw_type].
    rewrite Ey in Hy. apply (widened_product_in_range _ _ _ Hw Hx Hy).
  - unfold has_raw_value in *. cbn [ftype value widened_fixed_type raw_type].
    unfold widened_raw_type.
    apply prescale_in_range; try assumption.
    apply pow2_fractional_bound, Hwfz.
Qed.

(** X14: [std::fma (x, y, z)] on a non-widened type adds [z] to the
    exact double-width product before narrowing; the result is the product
    divided by [2^F], rounded toward negative infinity, plus [z], in the raw
    type, which is also what [x *= y] followed by [+ z] gives. *)
Theorem fma_single_narrowing (x y z : fixed_point) :
  well_formed (ftype x) = true ->
  is_widened (ftype x) = false ->
  fixed_point_widened_raw_type (raw_type (ftype x)) <> Void ->
  ftype y = ftype x ->
  ftype z = ftype x ->
  has_raw_value x ->
  has_raw_value y ->
  has_raw_value z ->
  exists r : fixed_point,
    fma x y z = Ok r
    /\ ftype r = ftype x
    /\ value r
       = wrap (raw_type (ftype x))
           (value x * value y / 2 ^ Z.of_N (fractional_bits (ftype x)) + value z)
    /\ (p <- operator_mul_assign x y ;; Ok (operator_add p z)) = Ok r.
Proof.
  intros Hwf Hnw Hw Ey Ez Hx Hy Hz.
  eexists. split; [apply fma_value; assumption | ].
  cbn [ftype value]. split; [reflexivity | split; [reflexivity | ]].
  rewrite (operator_mul_assign_value x y Hwf Hnw Hw Ey Hx Hy). cbn [bind].
  rewrite operator_add_value; try exact Hz; try exact Ez; try apply in_range_wrap.
  cbn [ftype value]. rewrite wrap_add_wrap_l. reflexivity.
Qed.

Lemma fma_single_narrowing_witness :
  exists r : fixed_point,
    fma (FixedPoint (FixedType Int32 16 16 false) 98304)
        (FixedPoint (FixedType Int32 16 16 false) 131072)
        (FixedPoint (FixedType Int32 16 16 false) (-65536)) = Ok r
    /\ ftype r = FixedType Int32 16 16 false
    /\ value r = 131072.
Proof.
  destruct (fma_single_narrowing
              (FixedPoint (FixedType Int32 16 16 false) 98304)
              (FixedPoint (FixedType Int32 16 16 false) 131072)
              (FixedPoint (FixedType Int32 16 16 false) (-65536))
              eq_refl eq_refl ltac:(discriminate) eq_refl eq_refl
              ltac:(vm_compute; split; discriminate)
              ltac:(vm_compute; split; discriminate)
              ltac:(vm_compute; split; discriminate))
    as (r & Hr & Ht & Hv & _).
  exists r. split; [exact Hr | split; [exact Ht | exact Hv]].
Defined.

(** X15: in a multiply-accumulate [a * b + c * d] the two products are
    added in the widened type and the sum is narrowed once: the raw result
    is the sum of the exact products divided by [2^F], rounded toward
    negative infinity, stored into the raw type. *)
Theorem multiply_accumulate (a b c d : fixed_point) :
  well_formed (ftype a) = true ->
  is_widened (ftype a) = false ->
  fixed_point_widened_raw_type (raw_type (ftype a)) <> Void ->
  ftype b = ftype a -> ftype c = ftype a -> ftype d = ftype a ->
  has_raw_value a -> has_raw_value b -> has_raw_value c -> has_raw_value d ->
  (p <- mul_fixed_fixed a b ;;
   q <- mul_fixed_fixed c d ;;
   operator_narrowed_fixed_type (operator_add p q))
  = Ok (FixedPoint (ftype a)
          (wrap (raw_type (ftype a))
             ((value a * value b + value c * value d)
              / 2 ^ Z.of_N (fractional_bits (ftype a))))).
Proof.
  intros Hwf Hnw Hw Eb Ec Ed Ha Hb Hc Hd.
  assert (Hwfc : well_formed (ftype c) = true) by (rewrite Ec; exact Hwf).
  assert (Hwc : fixed_point_widened_raw_type (raw_type (ftype c)) <> Void)
    by (rewrite Ec; exact Hw).
  rewrite (mul_fixed_fixed_value a b Hwf Hw Eb Ha Hb). cbn [bind].
  rewrite (mul_fixed_fixed_value c d Hwfc Hwc (eq_trans Ed (eq_sym Ec)) Hc Hd).
  cbn [bind]. rewrite Ec.
  rewrite operator_add_value.
  - cbn [ftype value]. unfold operator_narrowed_fixed_type. cbn [ftype].
    rewrite (narrowed_of_widened _ Hw Hnw).
    rewrite narrow_from_widened_value;
      try assumption; try reflexivity; try apply in_range_wrap.
    cbn [value widened_fixed_type raw_type]. unfold widened_raw_type.
    rewrite narrow_wrapped_sum by assumption. reflexivity.
  - reflexivity.
  - unfold has_raw_value in *. cbn [ftype value widened_fixed_type raw_type].
    rewrite Eb in Hb. apply (widened_product_in_range _ _ _ Hw Ha Hb).
  - unfold has_raw_value in *. cbn [ftype value widened_fixed_type raw_type].
    rewrite Ec in Hc. rewrite Ed in Hd.
    apply (widened_product_in_range _ _ _ Hw Hc Hd).
Qed.

Lemma multiply_accumulate_witness :
  (p <- mul_fixed_fixed (FixedPoint (FixedType Int32 16 16 false) 98304)
                        (FixedPoint (FixedType Int32 16 16 false) 98304) ;;
   q <- mul_fixed_fixed (FixedPoint (FixedType Int32 16 16 false) 32768)
                        (FixedPoint (FixedType Int32 16 16 false) 32768) ;;
   operator_narrowed_fixed_type (operator_add p q))
  = Ok (FixedPoint (FixedType Int32 16 16 false) 163840).
Proof.
  exact (multiply_accumulate
           (FixedPoint (FixedType Int32 16 16 false) 98304)
           (FixedPoint (FixedType Int32 16 16 false) 98304)
           (FixedPoint (FixedType Int32 16 16 false) 32768)
           (FixedPoint (FixedType Int32 16 16 false) 32768)
           eq_refl eq_refl ltac:(discriminate) eq_refl eq_refl eq_refl
           ltac:(vm_compute; split; discriminate)
           ltac:(vm_compute; split; discriminate)
           ltac:(vm_compute; split; discriminate)
           ltac:(vm_compute; split; discriminate)).
Defined.

(** X16: the overloads of [*] that take a widened operand narrow it
    before the widening multiplication: applied to the products [a * b]
    and [c], respectively [a * b] and [c * d], they multiply the raw value
    that [a *= b] (and [c *= d]) leaves, and the result again has the
    widened type. *)
Theorem widened_operands_are_narrowed (a b c d : fixed_point) :
  well_formed (ftype a) = true ->
  is_widened (ftype a) = false ->
  fixed_point_widened_raw_type (raw_type (ftype a)) <> Void ->
  ftype b = ftype a -> ftype c = ftype a -> ftype d = ftype a ->
  has_raw_value a -> has_raw_value b -> has_raw_value c -> has_raw_value d ->
  exists ab cd wab wcd : fixed_point,
    operator_mul_assign a b = Ok ab
    /\ operator_mul_assign c d = Ok cd
    /\ mul_fixed_fixed a b = Ok wab
    /\ mul_fixed_fixed c d = Ok wcd
    /\ mul_widened_fixed wab c
       = Ok (FixedPoint (widened_fixed_type (ftype a)) (value ab * value c))
    /\ mul_widened_widened wab wcd
       = Ok (FixedPoint (widened_fixed_type (ftype a)) (value ab * value cd)).
Proof.
  intros Hwf Hnw Hw Eb Ec Ed Ha Hb Hc Hd.
  assert (Hwfc : well_formed (ftype c) = true) by (rewrite Ec; exact Hwf).
  assert (Hnwc : is_widened (ftype c) = false) by (rewrite Ec; exact Hnw).
  assert (Hwc : fixed_point_widened_raw_type (raw_type (ftype c)) <> Void)
    by (rewrite Ec; exact Hw).
  assert (Edc : ftype d = ftype c) by congruence.
  pose proof (operator_mul_assign_value a b Hwf Hnw Hw Eb Ha Hb) as Hab.
  pose proof (operator_mul_assign_value c d Hwfc Hnwc Hwc Edc Hc Hd) as Hcd.
  pose proof (mul_fixed_fixed_value a b Hwf Hw Eb Ha Hb) as Hwab.
  pose proof (mul_fixed_fixed_value c d Hwfc Hwc Edc Hc Hd) as Hwcd.
  rewrite Ec in Hcd, Hwcd.
  do 4 eexists.
  split; [exact Hab | split; [exact Hcd | split; [exact Hwab | split; [exact Hwcd | ]]]].
  assert (Hnarrow : forall u v : Z,
             in_range (raw_type (ftype a)) u ->
             in_range (raw_type (ftype a)) v ->
             fixed_point_cast
               (narrowed_fixed_type (widened_fixed_type (ftype a)))
               (FixedPoint (widened_fixed_type (ftype a)) (u * v))
             = Ok (FixedPoint (ftype a)
                     (wrap (raw_type (ftype a))
                        (u * v / 2 ^ Z.of_N (fractional_bits (ftype a)))))).
  { intros u v Hu Hv. unfold fixed_point_cast. cbn [ftype].
    rewrite (narrowed_of_widened _ Hw Hnw), (proj1 (widened_not_same _ Hnw)).
    rewrite narrow_from_widened_value; try assumption; try reflexivity.
    - cbn [value]. rewrite Z.shiftr_div_pow2 by lia. reflexivity.
    - apply (widened_product_in_range _ u v Hw Hu Hv). }
  assert (Hb' : in_range (raw_type (ftype a)) (value b))
    by (unfold has_raw_value in Hb; rewrite Eb in Hb; exact Hb).
  assert (Hc' : in_range (raw_type (ftype a)) (value c))
    by (unfold has_raw_value in Hc; rewrite Ec in Hc; exact Hc).
  assert (Hd' : in_range (raw_type (ftype a)) (value d))
    by (unfold has_raw_value in Hd; rewrite Ed in Hd; exact Hd).
  pose proof (Hnarrow _ _ Ha Hb') as Hnab.
  pose proof (Hnarrow _ _ Hc' Hd') as Hncd.
  split.
  - unfold mul_widened_fixed. cbn [ftype]. rewrite Hnab. cbn [bind].
    rewrite mul_fixed_fixed_value;
      try assumption; try reflexivity; try apply in_range_wrap.
  - unfold mul_widened_widened. cbn [ftype]. rewrite Hnab, Hncd. cbn [bind].
    rewrite mul_fixed_fixed_value;
      try assumption; try reflexivity; try apply in_range_wrap.
Qed.

Lemma widened_operands_are_narrowed_witness :
  exists ab cd wab wcd : fixed_point,
    operator_mul_assign (FixedPoint (FixedType Int16 8 8 false) 384)
                        (FixedPoint (FixedType Int16 8 8 false) 384) = Ok ab
    /\ operator_mul_assign (FixedPoint (FixedType Int16 8 8 false) 512)
                           (FixedPoint (FixedType Int16 8 8 false) 128) = Ok cd
    /\ mul_fixed_fixed (FixedPoint (FixedType Int16 8 8 false) 384)
                       (FixedPoint (FixedType Int16 8 8 false) 384) = Ok wab
    /\ mul_fixed_fixed (FixedPoint (FixedType Int16 8 8 false) 512)
                       (FixedPoint (FixedType Int16 8 8 false) 128) = Ok wcd
    /\ mul_widened_fixed wab (FixedPoint (FixedType Int16 8 8 false) 512)
       = Ok (FixedPoint (FixedType Int32 16 16 true) (value ab * 512))
    /\ mul_widened_widened wab wcd
       = Ok (FixedPoint (FixedType Int32 16 16 true) (value ab * value cd)).
Proof.
  exact (widened_operands_are_narrowed
           (FixedPoint (FixedType Int16 8 8 false) 384)
           (FixedPoint (FixedType Int16 8 8 false) 384)
           (FixedPoint (FixedType Int16 8 8 false) 512)
           (FixedPoint (FixedType Int16 8 8 false) 128)
           eq_refl eq_refl ltac:(discriminate) eq_refl eq_refl eq_refl
           ltac:(vm_compute; split; discriminate)
           ltac:(vm_compute; split; discriminate)
           ltac:(vm_compute; split; discriminate)
           ltac:(vm_compute; split; discriminate)).
Defined.

Lemma div_fixed_fixed_value (a b : fixed_point) :
  well_formed (ftype a) = true ->
  fixed_point_widened_raw_type (raw_type (ftype a)) <> Void ->
  ftype b = ftype a ->
  has_raw_value a ->
  has_raw_value b ->
  value b <> 0 ->
  div_fixed_fixed a b
  = Ok (FixedPoint (ftype a)
          (wrap (raw_type (ftype a))
             (Z.quot (value a * 2 ^ Z.of_N (fractional_bits (ftype a))) (value b)))).
Proof.
  intros Hwf Hw E Ha Hb Hnz.
  unfold has_raw_value in *. rewrite E in Hb.
  set (F := Z.of_N (fractional_bits (ftype a))).
  assert (Hr : in_range (fixed_point_widened_raw_type (raw_type (ftype a)))
                 (value a * 2 ^ F))
    by (apply prescale_in_range; try assumption; apply pow2_fractional_bound, Hwf).
  unfold div_fixed_fixed, widened_raw_type.
  assert (Hvoid : is_void (fixed_point_widened_raw_type (raw_type (ftype a))) = false)
    by (destruct (fixed_point_widened_raw_type (raw_type (ftype a))) eqn:EW;
        [congruence | reflexivity ..]).
  rewrite Hvoid.
  set (W := fixed_point_widened_raw_type (raw_type (ftype a))) in *.
  pose proof (fractional_bits_lt_width _ Hwf) as HF.
  pose proof (bit_width_promote W) as HP.
  pose proof (bit_width_widened _ Hw) as HW. fold W in HW.
  rewrite shl_ok by (cbn [static_cast cty]; lia).
  cbn [bind static_cast cty cnum].
  change (cnum (raw a)) with (value a).
  assert (Hxa : in_range W (value a)).
  { pose proof (prescale_in_range _ (value a) 1 Hw Ha) as H1.
    rewrite Z.mul_1_r in H1. apply H1.
    pose proof (pow2_fractional_bound _ Hwf). lia. }
  rewrite (wrap_in_range W (value a)) by exact Hxa.
  rewrite (wrap_promote W (value a)) by exact Hxa.
  fold F. rewrite Z.shiftl_mul_pow2 by (subst F; lia).
  rewrite (wrap_promote W _ Hr).
  unfold div, raw. cbn [cty cnum]. rewrite E. subst W.
  rewrite common_type_widened by exact Hw.
  rewrite (wrap_in_range _ (value b))
    by (apply in_range_promote_widened; assumption).
  rewrite (wrap_in_range _ (value a * 2 ^ F)) by (apply in_range_promote, Hr).
  destruct (Z.eqb_spec (value b) 0) as [Hz | _]; [contradiction | ].
  rewrite (proj2 (in_rangeb_spec _ _))
    by (apply quot_scaled_in_range; assumption).
  cbn [bind]. reflexivity.
Qed.

(** X17: division undoes multiplication exactly: for [b] other than
    zero [(a * b) / b] is [a], the widened product being divided as it is;
    [a / a] is the value constructed from the integer 1, and dividing by
    that value returns [a] when 1 fits the integral bits. *)
Theorem div_undoes_mul (a b : fixed_point) :
  well_formed (ftype a) = true ->
  is_widened (ftype a) = false ->
  fixed_point_widened_raw_type (raw_type (ftype a)) <> Void ->
  ftype b = ftype a ->
  has_raw_value a ->
  has_raw_value b ->
  value b <> 0 ->
  (w <- mul_fixed_fixed a b ;; operator_div w b) = Ok a
  /\ operator_div b b = of_integral (ftype a) (lit 1)
  /\ (fits_in_integral_bits (ftype a) 1 ->
      (one <- of_integral (ftype a) (lit 1) ;; operator_div a one) = Ok a).
Proof.
  intros Hwf Hnw Hw E Ha Hb Hnz.
  set (p := 2 ^ Z.of_N (fractional_bits (ftype a))).
  assert (Hp : 0 < p) by (apply Z.pow_pos_nonneg; lia).
  assert (Hwfb : well_formed (ftype b) = true) by (rewrite E; exact Hwf).
  assert (Hwb : fixed_point_widened_raw_type (raw_type (ftype b)) <> Void)
    by (rewrite E; exact Hw).
  assert (Hof : of_integral (ftype a) (lit 1)
                = Ok (FixedPoint (ftype a) (wrap (raw_type (ftype a)) p))).
  { unfold lit. rewrite of_integral_value by (try exact Hwf; discriminate).
    rewrite Z.mul_1_l. reflexivity. }
  split; [ | split].
  - rewrite (mul_fixed_fixed_value a b Hwf Hw E Ha Hb). cbn [bind].
    unfold operator_div. cbn [ftype].
    rewrite E, (proj1 (widened_not_same _ Hnw)).
    rewrite (narrowed_of_widened _ Hw Hnw), fixed_type_eqb_refl.
    cbn [is_widened widened_fixed_type andb].
    rewrite div_widened_fixed_value; cbn [ftype value]; try assumption.
    + rewrite (narrowed_of_widened _ Hw Hnw).
      unfold narrowed_raw_type, widened_fixed_type, widened_raw_type.
      cbn [raw_type]. rewrite narrowed_raw_of_widened by exact Hw.
      rewrite Z.quot_mul by exact Hnz.
      rewrite (wrap_in_range _ _ Ha), fixed_point_eta. reflexivity.
    + rewrite (narrowed_of_widened _ Hw Hnw). exact Hwf.
    + rewrite (narrowed_of_widened _ Hw Hnw). exact E.
    + unfold has_raw_value in *. cbn [ftype value widened_fixed_type raw_type].
      rewrite E in Hb. apply (widened_product_in_range _ _ _ Hw Ha Hb).
    + rewrite Z.quot_mul by exact Hnz.
      unfold widened_fixed_type, widened_raw_type. cbn [raw_type].
      apply in_range_promote_widened; assumption.
  - unfold operator_div. rewrite fixed_type_eqb_refl, E, Hnw, <- E.
    rewrite (div_fixed_fixed_value b b Hwfb Hwb eq_refl Hb Hb Hnz).
    rewrite E. fold p. rewrite Hof.
    rewrite Z.mul_comm, Z.quot_mul by exact Hnz. reflexivity.
  - intros Hfit.
    destruct (scaled_integer_in_range _ 1 Hwf Hfit) as (_ & Hone).
    rewrite Z.mul_1_l in Hone. fold p in Hone.
    rewrite Hof, (wrap_in_range _ _ Hone). cbn [bind].
    unfold operator_div. cbn [ftype]. rewrite fixed_type_eqb_refl, Hnw.
    rewrite div_fixed_fixed_value; cbn [ftype value];
      try assumption; try reflexivity; try lia.
    fold p. rewrite Z.quot_mul by lia.
    rewrite (wrap_in_range _ _ Ha), fixed_point_eta. reflexivity.
Qed.

Lemma div_undoes_mul_witness :
  (w <- mul_fixed_fixed (FixedPoint (FixedType Int32 16 16 false) (-98304))
                        (FixedPoint (FixedType Int32 16 16 false) 3) ;;
   operator_div w (FixedPoint (FixedType Int32 16 16 false) 3))
  = Ok (FixedPoint (FixedType Int32 16 16 false) (-98304))
  /\ (one <- of_integral (FixedType Int32 16 16 false) (lit 1) ;;
      operator_div (FixedPoint (FixedType Int32 16 16 false) (-98304)) one)
     = Ok (FixedPoint (FixedType Int32 16 16 false) (-98304)).
Proof.
  destruct (div_undoes_mul
              (FixedPoint (FixedType Int32 16 16 false) (-98304))
              (FixedPoint (FixedType Int32 16 16 false) 3)
              eq_refl eq_refl ltac:(discriminate) eq_refl
              ltac:(vm_compute; split; discriminate)
              ltac:(vm_compute; split; discriminate)
              ltac:(discriminate))
    as (Hmul & _ & Hone).
  split; [exact Hmul | ].
  apply Hone. vm_compute. split; [discriminate | reflexivity].
Defined.

(** X18: the product of a non-widened value and an integer [n] has the
    widened type and the raw value [a.raw * n]: the integer enters the
    product unscaled, so narrowing the product gives [(a.raw * n) >> F]. *)
Theorem mul_by_integer_is_unscaled (otherT : raw_ty) (a : fixed_point) (n : Z) :
  well_formed (ftype a) = true ->
  is_widened (ftype a) = false ->
  fixed_point_widened_raw_type (raw_type (ftype a)) <> Void ->
  has_raw_value a ->
  otherT <> Void ->
  in_range (raw_type (ftype a)) n ->
  exists w : fixed_point,
    mul_fixed_integral a (CVal otherT n) = Ok w
    /\ ftype w = widened_fixed_type (ftype a)
    /\ value w = value a * n
    /\ operator_narrowed_fixed_type w
       = Ok (FixedPoint (ftype a)
               (wrap (raw_type (ftype a))
                  (value a * n / 2 ^ Z.of_N (fractional_bits (ftype a))))).
Proof.
  intros Hwf Hnw Hw Ha Hother Hn. unfold has_raw_value in Ha.
  destruct (widened_product_in_range _ _ _ Hw Ha Hn) as (Hxa & Hxn & Hxy).
  assert (Hint : is_integral otherT = true)
    by (destruct otherT; [congruence | reflexivity ..]).
  assert (Hvoid : is_void (fixed_point_widened_raw_type (raw_type (ftype a))) = false)
    by (destruct (fixed_point_widened_raw_type (raw_type (ftype a))) eqn:EW;
        [congruence | reflexivity ..]).
  assert (Hmul : mul_fixed_integral a (CVal otherT n)
                 = Ok (FixedPoint (widened_fixed_type (ftype a)) (value a * n))).
  { unfold mul_fixed_integral, widened_raw_type. cbn [cty].
    rewrite Hint, Hvoid. cbn [negb orb].
    rewrite construct_ok by (apply well_formed_widened; assumption).
    unfold mul, arith, static_cast, raw.
    cbn [cty cnum raw_type widened_fixed_type]. unfold widened_raw_type.
    set (W := fixed_point_widened_raw_type (raw_type (ftype a))) in *.
    rewrite common_type_diag.
    rewrite (wrap_in_range W (value a)), (wrap_in_range W n) by assumption.
    rewrite (wrap_promote W (value a)), (wrap_promote W n) by assumption.
    rewrite wrap_promote by assumption.
    rewrite wrap_in_range by assumption. reflexivity. }
  eexists. split; [exact Hmul | ].
  cbn [ftype value]. split; [reflexivity | split; [reflexivity | ]].
  unfold operator_narrowed_fixed_type. cbn [ftype].
  rewrite (narrowed_of_widened _ Hw Hnw).
  rewrite narrow_from_widened_value; try assumption; try reflexivity.
  cbn [value]. rewrite Z.shiftr_div_pow2 by lia. reflexivity.
Qed.

Lemma mul_by_integer_is_unscaled_witness :
  exists w : fixed_point,
    mul_fixed_integral (FixedPoint (FixedType Int32 16 16 false) 65536) (CVal Int32 3) = Ok w
    /\ ftype w = FixedType Int64 32 32 true
    /\ value w = 196608
    /\ operator_narrowed_fixed_type w
       = Ok (FixedPoint (FixedType Int32 16 16 false) 3).
Proof.
  destruct (mul_by_integer_is_unscaled Int32
              (FixedPoint (FixedType Int32 16 16 false) 65536) 3
              eq_refl eq_refl ltac:(discriminate)
              ltac:(vm_compute; split; discriminate)
              ltac:(discriminate)
              ltac:(vm_compute; split; discriminate))
    as (w & Hw & Ht & Hv & Hn).
  exists w. split; [exact Hw | split; [exact Ht | split; [exact Hv | exact Hn]]].
Defined.

Lemma common_type_same_sign (t u : raw_ty) (x y : Z) :
  t <> Void -> u <> Void ->
  is_signed u = is_signed t ->
  in_range t x -> in_range u y ->
  in_range (common_type (promote t) (promote u)) x
  /\ in_range (common_type (promote t) (promote u)) y
  /\ (bit_width t <= bit_width (common_type (promote t) (promote u)))%N.
Proof.
  intros Ht Hu Hs Hx Hy.
  destruct t; try congruence; destruct u; try congruence; try discriminate;
    unfold_range; cbn in *; lia.
Qed.

(** X19: dividing by an integer [n] of the signedness of the raw type
    divides the raw value by [n], truncating toward zero, and keeps the
    type, provided the quotient fits the type the division is carried out
    in (the common type of the promoted operands); dividing by 1 returns
    the value.  Dividing by 0, and a quotient that does not fit (the most
    negative value divided by -1), have no defined result. *)
Theorem div_by_integer (otherT : raw_ty) (a : fixed_point) (n : Z) :
  well_formed (ftype a) = true ->
  has_raw_value a ->
  otherT <> Void ->
  is_signed otherT = is_signed (raw_type (ftype a)) ->
  in_range otherT n ->
  let c := common_type (promote (raw_type (ftype a))) (promote otherT) in
  (n <> 0 ->
   (in_range c (Z.quot (value a) n) ->
    exists q : fixed_point,
      div_fixed_integral a (CVal otherT n) = Ok q
      /\ ftype q = ftype a
      /\ value q = wrap (raw_type (ftype a)) (Z.quot (value a) n)
      /\ (n = 1 -> q = a))
   /\ (~ in_range c (Z.quot (value a) n) ->
       div_fixed_integral a (CVal otherT n) = Undefined))
  /\ (n = 0 -> div_fixed_integral a (CVal otherT n) = Undefined).
Proof.
  intros Hwf Ha Hother Hs Hn c. unfold has_raw_value in Ha.
  destruct (well_formed_spec _ Hwf) as (Hv & _).
  destruct (common_type_same_sign _ _ _ _ Hv Hother Hs Ha Hn) as (Hca & Hcn & Hbw).
  assert (Hint : is_integral otherT = true)
    by (destruct otherT; [congruence | reflexivity ..]).
  unfold div_fixed_integral, div, raw. cbn [cty cnum]. rewrite Hint.
  fold c in Hca, Hcn, Hbw |- *.
  rewrite (wrap_in_range _ _ Hca), (wrap_in_range _ _ Hcn).
  split.
  - intros Hnz. destruct (Z.eqb_spec n 0) as [H0 | _]; [contradiction | ].
    split.
    + intros Hq. rewrite (proj2 (in_rangeb_spec _ _) Hq).
      cbn [bind]. eexists. split; [reflexivity | ].
      unfold FIXED_POINT_RAW, static_cast. cbn [ftype value cnum].
      split; [reflexivity | split; [reflexivity | ]].
      intros H1. subst n. rewrite Z.quot_1_r, (wrap_in_range _ _ Ha).
      apply fixed_point_eta.
    + intros Hq. destruct (in_rangeb c (Z.quot (value a) n)) eqn:Hin;
        [ | reflexivity].
      apply in_rangeb_spec in Hin. contradiction.
  - intros H0. subst n. reflexivity.
Qed.

Lemma div_by_integer_witness :
  exists q : fixed_point,
    div_fixed_integral (FixedPoint (FixedType Int32 16 16 false) (-98304))
                       (CVal Int32 256) = Ok q
    /\ ftype q = FixedType Int32 16 16 false
    /\ value q = -384.
Proof.
  destruct (div_by_integer Int32
              (FixedPoint (FixedType Int32 16 16 false) (-98304)) 256
              eq_refl ltac:(vm_compute; split; discriminate)
              ltac:(discriminate) eq_refl
              ltac:(vm_compute; split; discriminate))
    as (Hq & _).
  destruct (proj1 (Hq ltac:(discriminate)))
    as (q & Hd & Ht & Hv & _).
  - vm_compute. split; discriminate.
  - exists q. split; [exact Hd | split; [exact Ht | exact Hv]].
Defined.

(** The excluded case: the most negative 32-bit raw value divided by -1. *)
Example div_by_integer_overflow :
  div_fixed_integral (FixedPoint (FixedType Int32 16 16 false) (- 2 ^ 31))
                     (CVal Int32 (-1)) = Undefined.
Proof. reflexivity. Qed.

(** X20: adding a value to a value of its widened companion type
    promotes it exactly ([raw << F]) and adds in the widened raw type, on
    either side; subtracting it again restores the widened value, and
    [c - w] is the negation of [w - c]. *)
Theorem widened_accumulate (w c : fixed_point) :
  well_formed (ftype c) = true ->
  is_widened (ftype c) = false ->
  fixed_point_widened_raw_type (raw_type (ftype c)) <> Void ->
  ftype w = widened_fixed_type (ftype c) ->
  has_raw_value w ->
  has_raw_value c ->
  let p := 2 ^ Z.of_N (fractional_bits (ftype c)) in
  exists s : fixed_point,
    add_widened_fixed w c = Ok s
    /\ ftype s = ftype w
    /\ value s = wrap (raw_type (ftype w)) (value w + value c * p)
    /\ add_fixed_widened c w = Ok s
    /\ sub_widened_fixed s c = Ok w
    /\ sub_fixed_widened c w
       = (d <- sub_widened_fixed w c ;; Ok (operator_neg d)).
Proof.
  intros Hwf Hnw Hw E Hrw Hrc p.
  set (cw := FixedPoint (widened_fixed_type (ftype c)) (value c * p)).
  assert (Hcast : fixed_point_cast (ftype w) c = Ok cw).
  { unfold fixed_point_cast. rewrite E, (proj2 (widened_not_same _ Hnw)).
    apply widen_value; assumption. }
  assert (Hrcw : has_raw_value cw).
  { unfold has_raw_value. cbn [cw ftype value widened_fixed_type raw_type].
    unfold widened_raw_type. apply prescale_in_range; try assumption.
    apply pow2_fractional_bound, Hwf. }
  assert (Ecw : ftype cw = ftype w) by (rewrite E; reflexivity).
  set (s := FixedPoint (ftype w) (wrap (raw_type (ftype w)) (value w + value c * p))).
  assert (Hadd : operator_add w cw = s)
    by (rewrite (operator_add_value w cw Ecw Hrw Hrcw); reflexivity).
  assert (Hrs : has_raw_value s) by apply in_range_wrap.
  exists s.
  split; [unfold add_widened_fixed; rewrite Hcast; cbn [bind]; rewrite Hadd; reflexivity | ].
  split; [reflexivity | split; [reflexivity | ]].
  split; [unfold add_fixed_widened, add_widened_fixed; rewrite Hcast; cbn [bind];
          rewrite Hadd; reflexivity | ].
  split.
  - unfold sub_widened_fixed. change (ftype s) with (ftype w).
    rewrite Hcast. cbn [bind].
    rewrite (operator_sub_value s cw Ecw Hrs Hrcw). cbn [s cw ftype value].
    rewrite wrap_sub_wrap_l.
    replace (value w + value c * p - value c * p) with (value w) by lia.
    rewrite (wrap_in_range _ _ Hrw), fixed_point_eta. reflexivity.
  - unfold sub_fixed_widened, sub_widened_fixed. rewrite Hcast. cbn [bind].
    rewrite (operator_sub_value cw w (eq_sym Ecw) Hrcw Hrw).
    rewrite (operator_sub_value w cw Ecw Hrw Hrcw).
    rewrite operator_neg_value by apply in_range_wrap.
    cbn [cw ftype value]. rewrite wrap_opp_wrap, <- E.
    do 3 f_equal. lia.
Qed.

Lemma widened_accumulate_witness :
  exists s : fixed_point,
    add_widened_fixed (FixedPoint (FixedType Int64 32 32 true) 12884901888)
                      (FixedPoint (FixedType Int32 16 16 false) 65536) = Ok s
    /\ value s = 17179869184
    /\ sub_widened_fixed s (FixedPoint (FixedType Int32 16 16 false) 65536)
       = Ok (FixedPoint (FixedType Int64 32 32 true) 12884901888).
Proof.
  destruct (widened_accumulate
              (FixedPoint (FixedType Int64 32 32 true) 12884901888)
              (FixedPoint (FixedType Int32 16 16 false) 65536)
              eq_refl eq_refl ltac:(discriminate) eq_refl
              ltac:(vm_compute; split; discriminate)
              ltac:(vm_compute; split; discriminate))
    as (s & Hs & _ & Hv & _ & Hsub & _).
  exists s. split; [exact Hs | split; [exact Hv | exact Hsub]].
Defined.

(** X21: the two masks split a raw value: [fractional_mask] is
    [2^F - 1], also the raw value of [numeric_limits::round_error ()], the
    masks have no bit in common, and a value is its [trunc] plus its raw
    value ANDed with [fractional_mask], a part between 0 and the mask.
    This holds for the types whose mask constants are constant expressions,
    that is where [(raw_type(1) << F) - 1] does not overflow the promoted
    raw type; for the other types the masks are rejected. *)
Theorem masks_split_value (a : fixed_point) :
  well_formed (ftype a) = true ->
  (fractional_bits (ftype a) < digits (promote (raw_type (ftype a))))%N ->
  has_raw_value a ->
  let F := Z.of_N (fractional_bits (ftype a)) in
  exists (fm im : Z) (re t : fixed_point),
    fractional_mask (ftype a) = Ok (CVal (raw_type (ftype a)) fm)
    /\ integral_mask (ftype a) = Ok (CVal (raw_type (ftype a)) im)
    /\ numeric_limits_round_error (ftype a) = Ok re
    /\ value re = fm
    /\ fm = 2 ^ F - 1
    /\ Z.land fm im = 0
    /\ trunc a = Ok t
    /\ value a = value t + Z.land (value a) fm
    /\ 0 <= Z.land (value a) fm <= fm.
Proof.
  intros Hwf Hc Ha F.
  destruct (well_formed_spec _ Hwf) as (Hv & _).
  pose proof (fractional_bits_lt_width _ Hwf) as HF.
  pose proof (pow2_fractional_bound _ Hwf) as Hp. fold F in Hp.
  assert (Hf : 0 <= F < Z.of_N (bit_width (raw_type (ftype a))))
    by (subst F; lia).
  assert (Hfm : in_range (raw_type (ftype a)) (2 ^ F - 1)).
  { apply in_range_pow2; [exact Hv | ].
    destruct (is_signed (raw_type (ftype a))); [lia | ].
    assert (2 ^ (Z.of_N (bit_width (raw_type (ftype a))) - 1)
            <= 2 ^ Z.of_N (bit_width (raw_type (ftype a))))
      by (apply Z.pow_le_mono_r; lia).
    lia. }
  exists (2 ^ F - 1), (wrap (raw_type (ftype a)) (- 2 ^ F)).
  exists (FixedPoint (ftype a) (2 ^ F - 1)).
  exists (FixedPoint (ftype a) (Z.shiftl (Z.shiftr (value a) F) F)).
  split; [apply fractional_mask_value; assumption | ].
  split; [apply integral_mask_value; assumption | ].
  split.
  { unfold numeric_limits_round_error. rewrite Hwf, fractional_mask_value by assumption.
    cbn [bind]. unfold FIXED_POINT_RAW, static_cast. cbn [cnum]. fold F.
    rewrite (wrap_in_range _ _ Hfm). reflexivity. }
  split; [reflexivity | split; [reflexivity | ]].
  assert (Hones : 2 ^ F - 1 = Z.ones F) by (rewrite Z.ones_equiv; lia).
  split.
  { rewrite (land_integral_mask _ _ _ Hv Hf Hfm).
    rewrite Hones, Z.shiftr_div_pow2, Z.ones_div_pow2 by lia.
    rewrite Z.sub_diag. change (Z.ones 0) with 0. apply Z.shiftl_0_l. }
  split; [apply trunc_value; assumption | ].
  cbn [value]. rewrite Hones, Z.land_ones by lia.
  rewrite Z.shiftr_div_pow2, Z.shiftl_mul_pow2 by lia.
  assert (H2 : 0 < 2 ^ F) by lia.
  pose proof (Z.mod_pos_bound (value a) (2 ^ F) H2).
  pose proof (Z.div_mod (value a) (2 ^ F) ltac:(lia)).
  rewrite Z.ones_equiv. split; lia.
Qed.

Lemma masks_split_value_witness :
  exists (fm im : Z) (re t : fixed_point),
    fractional_mask (FixedType Int32 16 16 false) = Ok (CVal Int32 fm)
    /\ integral_mask (FixedType Int32 16 16 false) = Ok (CVal Int32 im)
    /\ fm = 65535
    /\ trunc (FixedPoint (FixedType Int32 16 16 false) (-98304)) = Ok t
    /\ -98304 = value t + Z.land (-98304) fm.
Proof.
  destruct (masks_split_value (FixedPoint (FixedType Int32 16 16 false) (-98304))
              eq_refl ltac:(vm_compute; reflexivity)
              ltac:(vm_compute; split; discriminate))
    as (fm & im & re & t & Hfm & Him & _ & _ & Hv & _ & Ht & Hsplit & _).
  exists fm, im, re, t.
  split; [exact Hfm | split; [exact Him | split; [exact Hv | split; [exact Ht | exact Hsplit]]]].
Defined.

(** X24: converting a value to a type with at least as many integral
    and at least as many fractional bits and converting the result back
    returns the value, whatever the signedness of the two raw types. *)
Theorem promotion_round_trip (dest : fixed_type) (a : fixed_point) :
  well_formed (ftype a) = true ->
  well_formed dest = true ->
  has_raw_value a ->
  (integral_bits (ftype a) <= integral_bits dest)%N ->
  (fractional_bits (ftype a) <= fractional_bits dest)%N ->
  exists b : fixed_point,
    convert_to dest a = Ok b
    /\ ftype b = dest
    /\ has_raw_value b
    /\ convert_to (ftype a) b = Ok a.
Proof.
  intros Hsrc Hdest Ha HI HFle.
  destruct (well_formed_spec _ Hsrc) as (_ & Hbs & _).
  destruct (well_formed_spec _ Hdest) as (_ & Hbd & _).
  destruct (convert_to_value dest a Hsrc Hdest Ha)
    as (b & Hb & Ht & Hmore & _ & Hequal).
  assert (Hrb : has_raw_value b).
  { unfold has_raw_value. rewrite Ht.
    destruct (N.eq_dec (fractional_bits dest) (fractional_bits (ftype a))) as [He | Hne].
    - rewrite (Hequal He). apply in_range_wrap.
    - rewrite Hmore by lia. apply in_range_wrap. }
  exists b. split; [exact Hb | split; [exact Ht | split; [exact Hrb | ]]].
  assert (Hwfb : well_formed (ftype b) = true) by (rewrite Ht; exact Hdest).
  destruct (convert_to_value (ftype a) b Hwfb Hsrc Hrb)
    as (c & Hc & Htc & _ & Hfewer & Hequal').
  rewrite Hc. f_equal. destruct c as [ct cv]. cbn [ftype value] in *. subst ct.
  rewrite <- (fixed_point_eta a). f_equal. rewrite Ht in Hfewer, Hequal'.
  unfold has_raw_value in Ha.
  destruct (N.eq_dec (fractional_bits dest) (fractional_bits (ftype a))) as [He | Hne].
  - rewrite (Hequal' (eq_sym He)), (Hequal He).
    rewrite wrap_wrap_wider by lia. apply wrap_in_range, Ha.
  - rewrite Hfewer, Hmore by lia.
    rewrite wrap_shiftr_wrap by lia.
    rewrite Z.shiftr_shiftl_l by lia.
    rewrite Z.sub_diag, Z.shiftl_0_r.
    rewrite wrap_wrap_wider by lia. apply wrap_in_range, Ha.
Qed.

Lemma promotion_round_trip_witness :
  exists b : fixed_point,
    convert_to (FixedType UInt64 40 24 false)
               (FixedPoint (FixedType Int32 16 16 false) (-98304)) = Ok b
    /\ convert_to (FixedType Int32 16 16 false) b
       = Ok (FixedPoint (FixedType Int32 16 16 false) (-98304)).
Proof.
  destruct (promotion_round_trip (FixedType UInt64 40 24 false)
              (FixedPoint (FixedType Int32 16 16 false) (-98304))
              eq_refl eq_refl ltac:(vm_compute; split; discriminate)
              ltac:(vm_compute; discriminate) ltac:(vm_compute; discriminate))
    as (b & Hb & _ & _ & Hback).
  exists b. split; [exact Hb | exact Hback].
Defined.

End FixedPointMore.

(** ** Further properties of hw_reg *)

Module HwRegMore.

Import HwReg.

Section access.

Variable T : Type.

(** X22: on a writable register [write] and assignment store the value
    and keep the capabilities, a following [read] or conversion to [T]
    returns the stored value when the register is readable, and a second
    write overrides the first; without the capability a write or a read
    does not compile. *)
Theorem write_then_read (v v2 : T) (r : hw_reg T) :
  (can_write r = true ->
   exists r' : hw_reg T,
     write v r = Ok r'
     /\ operator_assign v r = Ok r'
     /\ can_read r' = can_read r
     /\ can_write r' = can_write r
     /\ (can_read r = true -> read r' = Ok v /\ operator_T r' = Ok v)
     /\ write v2 r' = write v2 r)
  /\ (can_write r = false ->
      write v r = IllFormed /\ operator_assign v r = IllFormed)
  /\ (can_read r = false ->
      read r = IllFormed /\ operator_T r = IllFormed).
Proof.
  unfold write, operator_assign, read, operator_T, write_tag, read_tag,
    var_read, var_write.
  split; [ | split].
  - intros Hw. rewrite Hw. cbn [bind].
    eexists. split; [reflexivity | ].
    cbn [can_read can_write reg_var __var].
    split; [reflexivity | split; [reflexivity | split; [reflexivity | ]]].
    split; [ | reflexivity].
    intros Hr. rewrite Hr. split; reflexivity.
  - intros Hw. rewrite Hw. split; reflexivity.
  - intros Hr. rewrite Hr. split; reflexivity.
Qed.

End access.

Lemma write_then_read_witness :
  exists r' : hw_reg Z,
    write 5 (HwReg true true (HwRegVar 7)) = Ok r'
    /\ read r' = Ok 5.
Proof.
  destruct (proj1 (write_then_read Z 5 9 (HwReg true true (HwRegVar 7))) eq_refl)
    as (r' & Hw & _ & _ & _ & Hr & _).
  exists r'. split; [exact Hw | exact (proj1 (Hr eq_refl))].
Defined.

Lemma integer_binop_add (t : Cxx.raw_ty) (s v : Z) :
  Cxx.in_range t s -> Cxx.in_range t v ->
  integer_binop t OpAdd s v = Ok (Cxx.wrap t (s + v)).
Proof.
  intros Hs Hv. unfold integer_binop, Cxx.static_cast. cbn [bind Cxx.cnum].
  rewrite CxxMore.add_stored by assumption. reflexivity.
Qed.

Lemma integer_binop_sub (t : Cxx.raw_ty) (s v : Z) :
  Cxx.in_range t s -> Cxx.in_range t v ->
  integer_binop t OpSub s v = Ok (Cxx.wrap t (s - v)).
Proof.
  intros Hs Hv. unfold integer_binop, Cxx.static_cast. cbn [bind Cxx.cnum].
  rewrite CxxMore.sub_stored by assumption. reflexivity.
Qed.

(** X23: on a read-write register of an integer type, [reg += v]
    followed by [reg -= v] restores the stored value, also when the sum
    wraps around, and two additions in a row add the wrapped sum of their
    operands. *)
Theorem compound_add_then_sub (t : Cxx.raw_ty) (s v u : Z) :
  Cxx.in_range t s ->
  Cxx.in_range t v ->
  Cxx.in_range t u ->
  let r := HwReg true true (HwRegVar s) in
  (r1 <- operator_compound (integer_binop t) OpAdd v r ;;
   operator_compound (integer_binop t) OpSub v r1) = Ok r
  /\ (r1 <- operator_compound (integer_binop t) OpAdd v r ;;
      operator_compound (integer_binop t) OpAdd u r1)
     = operator_compound (integer_binop t) OpAdd (Cxx.wrap t (v + u)) r.
Proof.
  intros Hs Hv Hu r.
  unfold operator_compound, write_tag, read_tag, var_read, var_write, r.
  cbn [can_read can_write reg_var __var bind].
  rewrite (integer_binop_add t s v Hs Hv).
  cbn [can_read can_write reg_var __var bind].
  rewrite integer_binop_sub, integer_binop_add, integer_binop_add;
    try assumption; try apply CxxFacts.in_range_wrap.
  cbn [bind]. split.
  - rewrite CxxMore.wrap_sub_wrap_l.
    replace (s + v - v) with s by lia.
    rewrite (CxxFacts.wrap_in_range _ _ Hs). reflexivity.
  - rewrite CxxMore.wrap_add_wrap_l, CxxMore.wrap_add_wrap_r.
    do 4 f_equal. lia.
Qed.

Lemma compound_add_then_sub_witness :
  (r1 <- operator_compound (integer_binop Cxx.Int8) OpAdd 100
           (HwReg true true (HwRegVar 100)) ;;
   operator_compound (integer_binop Cxx.Int8) OpSub 100 r1)
  = Ok (HwReg true true (HwRegVar 100)).
Proof.
  exact (proj1 (compound_add_then_sub Cxx.Int8 100 100 1
                  ltac:(vm_compute; split; discriminate)
                  ltac:(vm_compute; split; discriminate)
                  ltac:(vm_compute; split; discriminate))).
Defined.

End HwRegMore.
